(** * Mailer: templated bulk e-mail dispatch

    A shallow embedding of [mailer.py] (v1.12) and of [mailer_sendgrid.py]
    (v1.10), and the properties of the placeholder substitution, of the
    message composition and of the two sending loops.

    Conventions.
    - A Python [str] is a list of characters ([str]); [lit "..."] writes a
      literal.
    - A Python list is a [list]; [x[n]] is [getitem], which raises
      [IndexError] out of range.
    - The [placeholders] dict is an association list in insertion order,
      updated with [dict_set] (an existing key keeps its position).
    - Code that can raise returns a [result]; the [try]/[except]/[finally]
      of the sending loop is written out in [process_record].
    - What the scripts get from the outside (file system, [mimetypes],
      the SMTP server, the SendGrid API) is a [World] of oracles.
    - Console output, transmissions and sleeps are recorded as a list of
      [event]s, oldest first. *)

From Stdlib Require Import Ascii String DecimalString.
From Stdlib Require Import ZArith Lia Bool Arith List.
Import ListNotations.

(* ================================================================== *)
(** * Python built-ins used by the scripts *)
(* ================================================================== *)

Module Py.

Definition str := list ascii.

Definition lit (s : string) : str := list_ascii_of_string s.

Fixpoint str_eqb (a b : str) : bool :=
  match a, b with
  | [], [] => true
  | x :: a', y :: b' => Ascii.eqb x y && str_eqb a' b'
  | _, _ => false
  end.

(** Exceptions.  [IndexError] and [ValueError] are raised by the scripts'
    own expressions; [EnvError] is anything raised by the outside world
    (OSError, SMTPException, an HTTP error, ...), with its class name and
    its message. *)
Inductive exn : Type :=
| IndexError
| ValueError (msg : str)
| AttributeError (msg : str)
| EnvError (cls msg : str).

(** [str(e)], what [print(sys.exc_info()[1])] and [print(e)] show. *)
Definition exn_str (e : exn) : str :=
  match e with
  | IndexError => lit "list index out of range"
  | ValueError m => m
  | AttributeError m => m
  | EnvError _ m => m
  end.

Inductive result (A : Type) : Type :=
| Ok (a : A)
| Raise (e : exn).
Arguments Ok {A} a.
Arguments Raise {A} e.

Definition bind {A B} (m : result A) (f : A -> result B) : result B :=
  match m with
  | Ok a => f a
  | Raise e => Raise e
  end.

(** [l[n]] *)
Definition getitem {A} (l : list A) (n : nat) : result A :=
  match nth_error l n with
  | Some x => Ok x
  | None => Raise IndexError
  end.

(** [s.startswith(p)] *)
Fixpoint startswith (s p : str) {struct p} : bool :=
  match p with
  | [] => true
  | a :: p' =>
      match s with
      | [] => false
      | b :: s' => Ascii.eqb a b && startswith s' p'
      end
  end.

(** [s.endswith(p)] *)
Definition endswith (s p : str) : bool := startswith (rev s) (rev p).

(** [k in s] *)
Fixpoint contains (s k : str) : bool :=
  startswith s k ||
  match s with
  | [] => false
  | _ :: s' => contains s' k
  end.

(** The scan of [s.replace(old, new)] for a non-empty [old]: left to right,
    the leftmost occurrence first, occurrences never overlapping.  [skip] is
    the number of characters of the occurrence just matched that are still
    to be passed over. *)
Fixpoint replace_go (old new : str) (skip : nat) (s : str) : str :=
  match s with
  | [] => []
  | c :: s' =>
      match skip with
      | S n => replace_go old new n s'
      | O =>
          if startswith s old
          then new ++ replace_go old new (List.length old - 1) s'
          else c :: replace_go old new 0 s'
      end
  end.

(** [s.replace(old, new)].  With an empty [old], Python puts [new] before
    every character and at the end. *)
Definition replace (s old new : str) : str :=
  match old with
  | [] => new ++ flat_map (fun c => c :: new) s
  | _ :: _ => replace_go old new 0 s
  end.

(** The scan of [s.split(sep)] for a non-empty [sep]; [cur] is the field
    being read. *)
Fixpoint split_go (sep : str) (skip : nat) (cur : str) (s : str) : list str :=
  match s with
  | [] => [cur]
  | c :: s' =>
      match skip with
      | S n => split_go sep n cur s'
      | O =>
          if startswith s sep
          then cur :: split_go sep (List.length sep - 1) [] s'
          else split_go sep 0 (cur ++ [c]) s'
      end
  end.

(** [s.split(sep)]: an empty separator is a [ValueError]. *)
Definition split (s sep : str) : result (list str) :=
  match sep with
  | [] => Raise (ValueError (lit "empty separator"))
  | _ :: _ => Ok (split_go sep 0 [] s)
  end.

(** [s.split(sep, 1)] unpacked into two names, as in
    [maintype, subtype = ctype.split('/', 1)]: the text before and after the
    first [sep]; a [ValueError] when there is none. *)
Fixpoint split_once (s sep : str) (cur : str) : option (str * str) :=
  match s with
  | [] => None
  | c :: s' =>
      if startswith s sep
      then Some (cur, skipn (List.length sep) s)
      else split_once s' sep (cur ++ [c])
  end.

Definition unpack2 (s sep : str) : result (str * str) :=
  match sep with
  | [] => Raise (ValueError (lit "empty separator"))
  | _ :: _ =>
      match split_once s sep [] with
      | Some p => Ok p
      | None => Raise (ValueError (lit "not enough values to unpack (expected 2, got 1)"))
      end
  end.

(** [str(n)] for a non-negative integer. *)
Definition str_of_nat (n : nat) : str :=
  lit (NilZero.string_of_uint (Nat.to_uint n)).

(** [dict[k] = v] on a dict kept in insertion order. *)
Fixpoint dict_set {V} (d : list (str * V)) (k : str) (v : V) : list (str * V) :=
  match d with
  | [] => [(k, v)]
  | (k', v') :: d' =>
      if str_eqb k' k then (k', v) :: d' else (k', v') :: dict_set d' k v
  end.

(** [enumerate(l)], counting from [n]. *)
Fixpoint enumerate_from {A} (n : nat) (l : list A) : list (nat * A) :=
  match l with
  | [] => []
  | x :: l' => (n, x) :: enumerate_from (S n) l'
  end.

Definition enumerate {A} (l : list A) : list (nat * A) := enumerate_from 0 l.

End Py.

Import Py.

Declare Scope py_scope.
Delimit Scope py_scope with py.
Notation "x <- m ;; k" := (bind m (fun x => k))
  (at level 61, m at next level, right associativity) : py_scope.
Notation "' p <- m ;; k" := (bind m (fun p => k))
  (at level 61, p pattern, m at next level, right associativity) : py_scope.
Open Scope py_scope.

(* ================================================================== *)
(** * The part shared by the two scripts: header row and substitution *)
(* ================================================================== *)

Module Merge.

(** [valor.startswith('||') and valor.endswith('||')] *)
Definition is_placeholder (valor : str) : bool :=
  startswith valor (lit "||") && endswith valor (lit "||").

(** The loop over [enumerate(columnas)] that fills [placeholders]. *)
Definition placeholders_step (d : list (str * nat)) (iv : nat * str) : list (str * nat) :=
  let '(indice, valor) := iv in
  if is_placeholder valor then dict_set d valor indice else d.

Definition build_placeholders (columnas : list str) : list (str * nat) :=
  fold_left placeholders_step (enumerate columnas) [].

(** The substitution loop over [placeholders.items()] for one row [i]:
<<
    for k, v in placeholders.items():
        elem_asunto=elem_asunto.replace(k, i[v])
        elem_cuerpo=elem_cuerpo.replace(k, i[v])
>>
    [i[v]] raises [IndexError] when the row is too short. *)
Fixpoint substitute (placeholders : list (str * nat)) (i : list str)
         (elem_asunto elem_cuerpo : str) : result (str * str) :=
  match placeholders with
  | [] => Ok (elem_asunto, elem_cuerpo)
  | (k, v) :: rest =>
      x <- getitem i v ;;
      substitute rest i (replace elem_asunto k x) (replace elem_cuerpo k x)
  end.

End Merge.

Import Merge.

(* ================================================================== *)
(** * [ntpath.basename]

    The script keeps the terminal component of an attachment's path with
    [ntpath.basename].  This is [ntpath] as in CPython 3.8: [basename(p)] is
    [split(p)[1]], and [split] first takes the drive (a drive letter with
    its colon, or a UNC share) off the path. *)
(* ================================================================== *)

Module NtPath.

Definition sep : ascii := "\"%char.
Definition altsep : ascii := "/"%char.
Definition colon : ascii := ":"%char.

(** [c in seps] *)
Definition is_sep (c : ascii) : bool := Ascii.eqb c sep || Ascii.eqb c altsep.

(** [p.replace(altsep, sep)] *)
Definition normalize (p : str) : str :=
  map (fun c => if Ascii.eqb c altsep then sep else c) p.

(** [normp.find(sep, start)]: [None] is Python's [-1]. *)
Fixpoint find_sep (normp : str) (start : nat) : option nat :=
  match normp with
  | [] => None
  | c :: rest =>
      match start with
      | S n => option_map S (find_sep rest n)
      | O =>
          if Ascii.eqb c sep then Some 0
          else option_map S (find_sep rest 0)
      end
  end.

(** [ntpath.splitdrive(p)] *)
Definition splitdrive (p : str) : str * str :=
  if 2 <=? List.length p then
    let normp := normalize p in
    if str_eqb (firstn 2 normp) [sep; sep]
       && negb (str_eqb (firstn 1 (skipn 2 normp)) [sep])
    then
      match find_sep normp 2 with
      | None => ([], p)
      | Some index =>
          match find_sep normp (index + 1) with
          | Some index2 =>
              if index2 =? index + 1 then ([], p)
              else (firstn index2 p, skipn index2 p)
          | None => (p, [])
          end
      end
    else if str_eqb (firstn 1 (skipn 1 normp)) [colon]
    then (firstn 2 p, skipn 2 p)
    else ([], p)
  else ([], p).

(** The loop [while i and p[i-1] not in seps: i -= 1] of [ntpath.split],
    run over the reversed path: the number of characters after the last
    separator. *)
Fixpoint tail_length (reversed : str) : nat :=
  match reversed with
  | [] => 0
  | c :: rest => if is_sep c then 0 else S (tail_length rest)
  end.

(** [ntpath.split(p)[1]] *)
Definition split_tail (p : str) : str :=
  let p := snd (splitdrive p) in
  let i := List.length p - tail_length (rev p) in
  skipn i p.

Definition basename (p : str) : str := split_tail p.

End NtPath.

(* ================================================================== *)
(** * Messages, events and the outside world *)
(* ================================================================== *)

Module Data.

(** A header line: name, value and the parameters given to [add_header]. *)
Record header : Type := Header {
  h_name : str;
  h_value : str;
  h_params : list (str * str)
}.

(** The class of [email.mime] a part is built with. *)
Inductive mime_class : Type :=
| MIMEText (charset : option str)
| MIMEImage
| MIMEAudio
| MIMEBase_base64.

Record part : Type := Part {
  part_class : mime_class;
  part_maintype : str;
  part_subtype : str;
  part_payload : str;
  part_headers : list header
}.

(** A [MIMEMultipart]: the headers in the order they were set, and the
    attached parts. *)
Record message : Type := Message {
  m_headers : list header;
  m_parts : list part
}.

(** One personalization of a SendGrid [Mail]. *)
Record personalization : Type := Personalization {
  pers_to : list str;
  pers_cc : option (list str);
  pers_bcc : option (list str);
  pers_substitutions : option (list (str * str))
}.

Record mail : Type := Mail {
  mail_personalizations : list personalization;
  mail_from : str * str;
  mail_subject : str;
  mail_content : str
}.

Inductive event : Type :=
| EPrint (text : str)
| ESendmail (from_addr : str) (rcpt : list str) (composed : message)
| ESendgrid (mensaje : mail)
| ESleep (secs : Z).

Inductive smtp_step : Type :=
| Connect (servidor : str) (timeout : Z)
| StartTLS
| Login (username password : str)
| Sendmail (from_addr : str) (rcpt : list str) (composed : message)
| Quit.

(** [config.json] *)
Record Config : Type := {
  servidor_smtp : str;
  username : str;
  password : str;
  from_email : str;
  separador_csv : str;
  separador_subcampos : str;
  timeout : Z;
  engine : str
}.

(** The command line, as [optparse] leaves it in [opts]. *)
Record Opts : Type := {
  lista : option str;
  texto : option str;
  delay : Z;
  config : str
}.

(** What the scripts read from and send to the outside.
    - [read_texto] and [read_lista] are the two reading loops that follow
      the load of the configuration: the subject and the body of the
      template, the header row and the rows of the list.
    - [smtp n step] is the answer of the SMTP library to [step] while the
      [n]-th row is sent, [None] when the step goes through.
    - [sendgrid_send n m] is the answer of the API to the block that starts
      after row [n]: status code, body and headers, or a failure.
    - [re_from s] is the match of
      [^([^<]+)<([A-Za-z0-9._%+-]+@[A-Za-z0-9.-]+\.[A-Za-z]{2,})>$]
      against [s]: groups 1 and 2. *)
Record World : Type := {
  isfile : str -> bool;
  load_config : str -> option Config;
  read_texto : str -> result (str * str);
  read_lista : str -> str -> result (list str * list (list str));
  guess_type : str -> option str * option str;
  read_text : str -> result str;
  read_bytes : str -> result str;
  smtp : nat -> smtp_step -> option exn;
  sendgrid_send : nat -> mail -> result (str * str * str);
  re_from : str -> option (str * str);
  strftime_inicio : str;
  strftime_total : str
}.

(** [print(a, b, ...)]: the arguments joined by a space, then [end]. *)
Definition print_end (args : list str) (end_ : str) : event :=
  EPrint (List.concat (match args with
                  | [] => []
                  | a :: rest => a :: map (fun x => lit " " ++ x) rest
                  end) ++ end_).

Definition print (args : list str) : event := print_end args (lit (String "010" "")).

(** [time.sleep(secs)]: a negative length is a [ValueError]. *)
Definition time_sleep (secs : Z) : result event :=
  if (secs <? 0)%Z
  then Raise (ValueError (lit "sleep length must be non-negative"))
  else Ok (ESleep secs).

End Data.

Import Data.

(* ================================================================== *)
(** * The SMTP sending loop

    The loop [for i in elems_lista] is the same text in [mailer.py]
    (lines 152-248) and in the SMTP branch of [mailer_sendgrid.py]
    (lines 246-333), but for the handling of the attachments, which is the
    parameter [attach_files] here. *)
(* ================================================================== *)

Module Smtp.

(** [MIMEMultipart()] *)
Definition MIMEMultipart : message :=
  Message [Header (lit "Content-Type") (lit "multipart/mixed") [];
           Header (lit "MIME-Version") (lit "1.0") []] [].

(** [outer[name] = value] *)
Definition set_header (outer : message) (name value : str) : message :=
  Message (m_headers outer ++ [Header name value []]) (m_parts outer).

(** [outer.attach(msg)] *)
Definition attach (outer : message) (msg : part) : message :=
  Message (m_headers outer) (m_parts outer ++ [msg]).

(** [msg.add_header(name, value, **params)] *)
Definition add_header (msg : part) (name value : str) (params : list (str * str)) : part :=
  Part (part_class msg) (part_maintype msg) (part_subtype msg) (part_payload msg)
       (part_headers msg ++ [Header name value params]).

(** From [mimetypes.guess_type] to the typed part: the guess, the generic
    type when there is none or the file is encoded, and one class of part
    for each main type. *)
Definition typed_part (W : World) (path : str) : result part :=
  let '(ctype, encoding) := guess_type W path in
  let ctype :=
    match ctype, encoding with
    | Some c, None => c
    | _, _ => lit "application/octet-stream"
    end in
  '(maintype, subtype) <- unpack2 ctype (lit "/") ;;
  if str_eqb maintype (lit "text") then
    payload <- read_text W path ;;
    Ok (Part (MIMEText None) maintype subtype payload [])
  else if str_eqb maintype (lit "image") then
    payload <- read_bytes W path ;;
    Ok (Part MIMEImage maintype subtype payload [])
  else if str_eqb maintype (lit "audio") then
    payload <- read_bytes W path ;;
    Ok (Part MIMEAudio maintype subtype payload [])
  else
    payload <- read_bytes W path ;;
    Ok (Part MIMEBase_base64 maintype subtype payload []).

Record state : Type := State {
  elem_actual : nat;
  envios_ok : nat;
  envios_error : nat;
  out : list event
}.

(** How the body of the loop ends: it goes on to the next row, or an
    exception leaves the loop (and the script) uncaught. *)
Inductive control : Type :=
| Next (st : state)
| Uncaught (e : exn) (st : state).

Section Loop.

Variable attach_files : World -> list str -> message -> result message.
Variable W : World.
Variable cfg : Config.
Variable opts : Opts.
Variable placeholders : list (str * nat).
Variables asunto cuerpo : str.
Variable total_elems : nat.

(** The [try] block up to [composed = outer.as_string()]: the envelope
    recipients [rcpt] and the message. *)
Definition compose (i : list str) (elem_asunto elem_cuerpo : str)
  : result (list str * message) :=
  let outer := MIMEMultipart in
  let outer := set_header outer (lit "Subject") elem_asunto in
  to <- getitem i 0 ;;
  let outer := set_header outer (lit "To") to in
  rcpt <- split to (separador_subcampos cfg) ;;
  cc <- getitem i 2 ;;
  '(outer, rcpt) <-
     (if negb (str_eqb cc [])
      then more <- split cc (separador_subcampos cfg) ;;
           Ok (set_header outer (lit "Cc") cc, rcpt ++ more)
      else Ok (outer, rcpt)) ;;
  bcc <- getitem i 3 ;;
  '(outer, rcpt) <-
     (if negb (str_eqb bcc [])
      then more <- split bcc (separador_subcampos cfg) ;;
           Ok (set_header outer (lit "Bcc") bcc, rcpt ++ more)
      else Ok (outer, rcpt)) ;;
  let outer := set_header outer (lit "From") (from_email cfg) in
  let outer := attach outer (Part (MIMEText (Some (lit "UTF-8")))
                                  (lit "text") (lit "html") elem_cuerpo []) in
  adjuntos <- getitem i 1 ;;
  filenames <- split adjuntos (separador_subcampos cfg) ;;
  outer <- attach_files W filenames outer ;;
  Ok (rcpt, outer).

Definition step (n : nat) (s : smtp_step) : result unit :=
  match smtp W n s with
  | None => Ok tt
  | Some e => Raise e
  end.

(** The rest of the [try] block: connection, [starttls], [login],
    [sendmail] and [quit].  The message is handed to the transport when
    [sendmail] is reached. *)
Definition session (n : nat) (rcpt : list str) (composed : message)
  : list event * result unit :=
  match (_ <- step n (Connect (servidor_smtp cfg) (timeout cfg)) ;;
         _ <- step n StartTLS ;;
         step n (Login (username cfg) (password cfg))) with
  | Raise e => ([], Raise e)
  | Ok _ =>
      ([ESendmail (from_email cfg) rcpt composed],
       _ <- step n (Sendmail (from_email cfg) rcpt composed) ;;
       step n Quit)
  end.

Definition try_block (n : nat) (i : list str) (elem_asunto elem_cuerpo : str)
  : list event * result unit :=
  match compose i elem_asunto elem_cuerpo with
  | Raise e => ([], Raise e)
  | Ok (rcpt, composed) => session n rcpt composed
  end.

(** The line printed before the [try]:
    [print('['+str(elem_actual)+'/'+str(total_elems)+'] Enviando: '+i[0], end=' ')] *)
Definition enviando (n : nat) (to : str) : event :=
  print_end [lit "[" ++ str_of_nat n ++ lit "/" ++ str_of_nat total_elems
             ++ lit "] Enviando: " ++ to] (lit " ").

(** The [except] clause (it has no class: it catches everything) and the
    last two statements of the [try]. *)
Definition report (st : state) (n : nat) (evs : list event) (r : result unit) : state :=
  match r with
  | Ok _ =>
      State n (envios_ok st + 1) (envios_error st)
            (out st ++ evs ++ [print [lit "[OK]"]])
  | Raise e =>
      State n (envios_ok st) (envios_error st + 1)
            (out st ++ evs ++ [print_end [lit "[ERROR]"] (lit " "); print [exn_str e]])
  end.

(** The [finally] clause: [time.sleep(opts.delay)]. *)
Definition finally_sleep (st : state) : control :=
  match time_sleep (delay opts) with
  | Ok ev => Next (State (elem_actual st) (envios_ok st) (envios_error st) (out st ++ [ev]))
  | Raise e => Uncaught e st
  end.

(** One turn of [for i in elems_lista].  The substitution and the printed
    line come before the [try]: what they raise is not caught. *)
Definition process_record (st : state) (i : list str) : control :=
  let n := elem_actual st + 1 in
  let st := State n (envios_ok st) (envios_error st) (out st) in
  match substitute placeholders i asunto cuerpo with
  | Raise e => Uncaught e st
  | Ok (elem_asunto, elem_cuerpo) =>
      match getitem i 0 with
      | Raise e => Uncaught e st
      | Ok to =>
          let st := State n (envios_ok st) (envios_error st) (out st ++ [enviando n to]) in
          let '(evs, r) := try_block n i elem_asunto elem_cuerpo in
          finally_sleep (report st n evs r)
      end
  end.

Fixpoint run (elems_lista : list (list str)) (st : state) : control :=
  match elems_lista with
  | [] => Next st
  | i :: rest =>
      match process_record st i with
      | Next st' => run rest st'
      | Uncaught e st' => Uncaught e st'
      end
  end.

(** [print("\nProceso completo.", envios_ok, "correos enviados OK,",
    envios_error, "correos con error.")] *)
Definition proceso_completo (st : state) : event :=
  print [lit (String "010" "Proceso completo."); str_of_nat (envios_ok st);
         lit "correos enviados OK,"; str_of_nat (envios_error st);
         lit "correos con error."].

End Loop.

End Smtp.

Import Smtp.

(* ================================================================== *)
(** * The start of the scripts

    The checks of the command line, the load of the configuration and the
    reading of the two files are the same text in both scripts
    ([mailer.py] lines 83-141, [mailer_sendgrid.py] lines 80-139). *)
(* ================================================================== *)

Module Start.

(** [not opts.lista]: the option is missing or empty. *)
Definition falsy (o : option str) : bool :=
  match o with
  | None => true
  | Some [] => true
  | Some (_ :: _) => false
  end.

Definition opt_str (o : option str) : str :=
  match o with
  | Some s => s
  | None => []
  end.

(** [parser.print_help()] *)
Definition print_help : event :=
  print [lit "Envia un correo tipo a una lista de direcciones, opcionalmente con archivos adjuntos."].

(** What is loaded before the first send, or the exit status of a start
    that fails: [sys.exit(1)] in four places, and status 1 as well when
    reading a file raises. *)
Record loaded : Type := Loaded {
  l_cfg : Config;
  l_asunto : str;
  l_cuerpo : str;
  l_columnas : list str;
  l_elems_lista : list (list str)
}.

Definition startup (W : World) (opts : Opts) (out : list event)
  : (nat * list event) + (loaded * list event) :=
  if falsy (lista opts) || falsy (texto opts) then inl (1, out ++ [print_help])
  else if negb (isfile W (opt_str (lista opts))) then
    inl (1, out ++ [print [lit "Error: No se encuentra el archivo " ++ opt_str (lista opts)]])
  else if negb (isfile W (opt_str (texto opts))) then
    inl (1, out ++ [print [lit "Error: No se encuentra el archivo " ++ opt_str (texto opts)]])
  else
    match load_config W (config opts) with
    | None =>
        inl (1, out ++ [print [lit "Error: No se pudo abrir el archivo de configuracion "
                               ++ config opts]])
    | Some cfg =>
        match read_texto W (opt_str (texto opts)) with
        | Raise _ => inl (1, out)
        | Ok (asunto, cuerpo) =>
            match read_lista W (opt_str (lista opts)) (separador_csv cfg) with
            | Raise _ => inl (1, out)
            | Ok (columnas, elems_lista) =>
                inr (Loaded cfg asunto cuerpo columnas elems_lista, out)
            end
        end
    end.

End Start.

Import Start.

(* ================================================================== *)
(** * [mailer.py] *)
(* ================================================================== *)

Module Mailer.

Inductive disposition : Type := Inline | Attachment.

(** The strings ['inline'] and ['attachment'] held by [disposicion]. *)
Definition disposition_str (d : disposition) : str :=
  match d with
  | Inline => lit "inline"
  | Attachment => lit "attachment"
  end.

(** Lines 185-189:
<<
    if len(filename) > 2 and filename[:2] == "i|":
        filename = filename[2:]
        disposicion = 'inline'
    else:
        disposicion = 'attachment'
>> *)
Definition inline_marker (filename : str) : str * disposition :=
  if (2 <? List.length filename) && str_eqb (firstn 2 filename) (lit "i|")
  then (skipn 2 filename, Inline)
  else (filename, Attachment).

(** Lines 223-226: the headers of an attachment. *)
Definition attachment_headers (msg : part) (filename : str) (disposicion : disposition) : part :=
  let filename := NtPath.basename filename in
  let msg := add_header msg (lit "Content-Disposition") (disposition_str disposicion)
                        [(lit "filename", filename)] in
  match disposicion with
  | Inline => add_header msg (lit "Content-ID") (lit "<" ++ filename ++ lit ">") []
  | Attachment => msg
  end.

(** One turn of [for filename in i[1].split(...)]: [None] is the
    [continue] of a specifier that is not a file. *)
Definition attachment_part (W : World) (filename : str) : result (option part) :=
  let '(filename, disposicion) := inline_marker filename in
  if negb (isfile W filename) then Ok None
  else
    msg <- typed_part W filename ;;
    Ok (Some (attachment_headers msg filename disposicion)).

Fixpoint attach_files (W : World) (filenames : list str) (outer : message) : result message :=
  match filenames with
  | [] => Ok outer
  | filename :: rest =>
      p <- attachment_part W filename ;;
      match p with
      | None => attach_files W rest outer
      | Some msg => attach_files W rest (attach outer msg)
      end
  end.

(** The sending loop of [mailer.py] on what was loaded. *)
Definition run_loaded (W : World) (opts : Opts) (l : loaded) (out : list event) : control :=
  run attach_files W (l_cfg l) opts (build_placeholders (l_columnas l))
      (l_asunto l) (l_cuerpo l) (List.length (l_elems_lista l))
      (l_elems_lista l) (State 0 0 0 out).

(** The whole script: the exit status and what was printed and sent.  An
    exception that nothing catches ends the interpreter with status 1. *)
Definition main (W : World) (opts : Opts) : nat * list event :=
  let out := [print [lit "Mailer v1.12"]] in
  match startup W opts out with
  | inl r => r
  | inr (l, out) =>
      let out := out ++ [print [lit "Proceso iniciado el"; strftime_inicio W]] in
      match run_loaded W opts l out with
      | Uncaught _ st => (1, Smtp.out st)
      | Next st =>
          let out := Smtp.out st ++
                     [proceso_completo st;
                      print [lit "Duraci" ++ ["243"%char] ++ lit "n total:"; strftime_total W]] in
          if 0 <? envios_error st then (2, out) else (0, out)
      end
  end.

End Mailer.

(* ================================================================== *)
(** * [mailer_sendgrid.py]

    Lines 212-216 and 224-225 of the script are two statements with no
    body (only a comment follows their colon); they are read here as
    statements that do nothing. *)
(* ================================================================== *)

Module MailerSendgrid.

(** Lines 276-312, SMTP branch: the specifier is the path, the disposition
    is always ['attachment'], and both headers carry the specifier as it
    is. *)
Definition attachment_part (W : World) (filename : str) : result (option part) :=
  let path := filename in
  if negb (isfile W path) then Ok None
  else
    msg <- typed_part W path ;;
    let msg := add_header msg (lit "Content-Disposition") (lit "attachment")
                          [(lit "filename", filename)] in
    let msg := add_header msg (lit "Content-ID") (lit "<" ++ filename ++ lit ">") [] in
    Ok (Some msg).

Fixpoint attach_files (W : World) (filenames : list str) (outer : message) : result message :=
  match filenames with
  | [] => Ok outer
  | filename :: rest =>
      p <- attachment_part W filename ;;
      match p with
      | None => attach_files W rest outer
      | Some msg => attach_files W rest (attach outer msg)
      end
  end.

(** [s.upper()] on the letters a-z. *)
Definition upper (s : str) : str :=
  map (fun c =>
         let n := nat_of_ascii c in
         if (97 <=? n) && (n <=? 122) then ascii_of_nat (n - 32) else c) s.

(** [s.strip()] *)
Definition is_space (c : ascii) : bool :=
  let n := nat_of_ascii c in
  ((9 <=? n) && (n <=? 13)) || ((28 <=? n) && (n <=? 32)) || (n =? 133) || (n =? 160).

Fixpoint lstrip (s : str) : str :=
  match s with
  | [] => []
  | c :: s' => if is_space c then lstrip s' else s
  end.

Definition strip (s : str) : str := rev (lstrip (rev (lstrip s))).

Definition bloque_envios : nat := 200.

(** [list(dict.fromkeys(l))]: the first occurrence of each element. *)
Fixpoint fromkeys (seen : list str) (l : list str) : list str :=
  match l with
  | [] => []
  | x :: l' =>
      if existsb (str_eqb x) seen then fromkeys seen l'
      else x :: fromkeys (x :: seen) l'
  end.

(** [d.get(k, 0)] *)
Fixpoint dict_get (d : list (str * nat)) (k : str) : nat :=
  match d with
  | [] => 0
  | (k', v) :: d' => if str_eqb k' k then v else dict_get d' k
  end.

(** How the SENDGRID branch ends: at the end of the list, or with an
    exception that nothing catches. *)
Inductive fin : Type :=
| Done (out : list event)
| Failed (e : exn) (out : list event).

Section Bloque.

Variable W : World.
Variable cfg : Config.
Variable placeholders : list (str * nat).
Variables asunto cuerpo : str.

(** Lines 165-173: the count of the attachment names of the block. *)
Fixpoint contar_adjuntos (bloque : list (list str)) (dict_adjuntos : list (str * nat))
  : result (list (str * nat)) :=
  match bloque with
  | [] => Ok dict_adjuntos
  | fila :: rest =>
      adjuntos <- getitem fila 1 ;;
      adjuntos_linea <- split adjuntos (separador_subcampos cfg) ;;
      let adjuntos_linea := fromkeys [] adjuntos_linea in
      contar_adjuntos rest
        (fold_left (fun d j => dict_set d j (dict_get d j + 1)) adjuntos_linea dict_adjuntos)
  end.

(** Lines 202-203: the substitutions of one row. *)
Fixpoint sustituciones (ph : list (str * nat)) (fila : list str) : result (list (str * str)) :=
  match ph with
  | [] => Ok []
  | (k, v) :: rest =>
      x <- getitem fila v ;;
      more <- sustituciones rest fila ;;
      Ok ((k, x) :: more)
  end.

(** Lines 180-216: one row of the block becomes one personalization. *)
Definition personalizar (fila : list str) : result personalization :=
  to_field <- getitem fila 0 ;;
  to <- split to_field (separador_subcampos cfg) ;;
  cc_field <- getitem fila 2 ;;
  cc <- (if negb (str_eqb cc_field [])
         then l <- split cc_field (separador_subcampos cfg) ;; Ok (Some l)
         else Ok None) ;;
  bcc_field <- getitem fila 3 ;;
  bcc <- (if negb (str_eqb bcc_field [])
          then l <- split bcc_field (separador_subcampos cfg) ;; Ok (Some l)
          else Ok None) ;;
  subs <- (if 0 <? List.length placeholders
           then l <- sustituciones placeholders fila ;; Ok (Some l)
           else Ok None) ;;
  adjuntos <- getitem fila 1 ;;
  _ <- split adjuntos (separador_subcampos cfg) ;;
  Ok (Personalization to cc bcc subs).

Fixpoint personalizar_bloque (bloque : list (list str)) : result (list personalization) :=
  match bloque with
  | [] => Ok []
  | fila :: rest =>
      p <- personalizar fila ;;
      ps <- personalizar_bloque rest ;;
      Ok (p :: ps)
  end.

(** Lines 158-225: the [Mail] of one block. *)
Definition compilar_bloque (bloque : list (list str)) : result mail :=
  _ <- contar_adjuntos bloque [] ;;
  ps <- personalizar_bloque bloque ;;
  match re_from W (from_email cfg) with
  | None => Raise (AttributeError (lit "'NoneType' object has no attribute 'group'"))
  | Some (g1, g2) => Ok (Mail ps (g2, strip g1) asunto cuerpo)
  end.

(** Lines 228-236: the send of the block, inside [try]/[except Exception]. *)
Definition enviar_bloque (elem_actual : nat) (mensaje : mail) : list event :=
  [print [lit "[OK] Bloque enviado OK. Respuesta del servidor:"]; ESendgrid mensaje] ++
  match sendgrid_send W elem_actual mensaje with
  | Ok (status_code, body, headers) => [print [status_code]; print [body]; print [headers]]
  | Raise e =>
      [print [lit "[ERROR] Env" ++ ["237"%char] ++ lit "o de bloque fall"
              ++ ["243"%char] ++ lit ". Respuesta del servidor:"];
       print [exn_str e]]
  end.

(** Lines 156-238: [while elem_actual < total_elems].  [fuel] bounds the
    number of turns; [None] when it runs out. *)
Fixpoint sendgrid_loop (fuel : nat) (elems_lista : list (list str))
         (elem_actual : nat) (out : list event) : option fin :=
  let total_elems := List.length elems_lista in
  if elem_actual <? total_elems then
    match fuel with
    | O => None
    | S fuel' =>
        let hasta := Nat.min (elem_actual + bloque_envios) total_elems in
        let out := out ++ [print [lit "Enviando correos"; str_of_nat (elem_actual + 1);
                                  lit "al"; str_of_nat hasta; lit "de";
                                  str_of_nat total_elems; lit "..."]] in
        let bloque := firstn (hasta - elem_actual) (skipn elem_actual elems_lista) in
        match compilar_bloque bloque with
        | Raise e => Some (Failed e out)
        | Ok mensaje =>
            sendgrid_loop fuel' elems_lista (elem_actual + bloque_envios)
                          (out ++ enviar_bloque elem_actual mensaje)
        end
    end
  else Some (Done out).

End Bloque.

(** The whole script.  The start is that of [mailer.py], then the branch
    chosen by [config['engine'].upper()].  No branch ends with
    [sys.exit]: the status is 0 whenever the end of the script is
    reached. *)
Definition main (fuel : nat) (W : World) (opts : Opts) : option (nat * list event) :=
  match startup W opts [] with
  | inl r => Some r
  | inr (l, out) =>
      let cfg := l_cfg l in
      let placeholders := build_placeholders (l_columnas l) in
      let elems_lista := l_elems_lista l in
      if str_eqb (upper (engine cfg)) (lit "SENDGRID") then
        match sendgrid_loop W cfg placeholders (l_asunto l) (l_cuerpo l)
                            fuel elems_lista 0 out with
        | None => None
        | Some (Failed _ out) => Some (1, out)
        | Some (Done out) => Some (0, out)
        end
      else if str_eqb (upper (engine cfg)) (lit "SMTP") then
        match run attach_files W cfg opts placeholders
                  (l_asunto l) (l_cuerpo l) (List.length elems_lista)
                  elems_lista (State 0 0 0 out) with
        | Uncaught _ st => Some (1, Smtp.out st)
        | Next st => Some (0, Smtp.out st ++ [proceso_completo st])
        end
      else Some (0, out)
  end.

End MailerSendgrid.

(* ================================================================== *)
(** * A small world to run the scripts in *)
(* ================================================================== *)

Module Example.

Definition cfg (engine : str) : Config :=
  {| servidor_smtp := lit "smtp.x.com:587";
     username := lit "user";
     password := lit "secret";
     from_email := lit "Me <me@x.com>";
     separador_csv := lit ",";
     separador_subcampos := lit ";";
     timeout := 10%Z;
     engine := engine |}.

(** The files [a.txt], [img/logo.png] and [i|] exist, next to the list and
    the template; the SMTP server refuses the login while the second row
    is sent; the API refuses the block that starts after row 200. *)
Definition world (engine : str) (columnas : list str) (elems_lista : list (list str)) : World :=
  {| isfile := fun p => existsb (str_eqb p)
                          [lit "a.txt"; lit "img/logo.png"; lit "i|";
                           lit "lista.csv"; lit "texto.txt"];
     load_config := fun _ => Some (cfg engine);
     read_texto := fun _ => Ok (lit "Hello ||name||", lit "Body ||name|| text");
     read_lista := fun _ _ => Ok (columnas, elems_lista);
     guess_type := fun p =>
       if endswith p (lit ".png") then (Some (lit "image/png"), None)
       else if endswith p (lit ".txt") then (Some (lit "text/plain"), None)
       else (None, None);
     read_text := fun _ => Ok (lit "some text");
     read_bytes := fun _ => Ok (lit "some bytes");
     smtp := fun n s =>
       match n, s with
       | 2, Login _ _ =>
           Some (EnvError (lit "SMTPAuthenticationError") (lit "authentication failed"))
       | _, _ => None
       end;
     sendgrid_send := fun n _ =>
       if n =? 200 then Raise (EnvError (lit "HTTPError") (lit "HTTP Error 400: Bad Request"))
       else Ok (lit "202", lit "", lit "");
     re_from := fun _ => Some (lit "Me ", lit "me@x.com");
     strftime_inicio := lit "01/01/2020, a las 00:00:00";
     strftime_total := lit "00:00:03" |}.

Definition opts (delay : Z) : Opts :=
  {| lista := Some (lit "lista.csv");
     texto := Some (lit "texto.txt");
     delay := delay;
     config := lit "config.json" |}.

Definition columnas : list str :=
  [lit "to"; lit "attach"; lit "cc"; lit "bcc"; lit "||name||"].

Definition fila (to adjuntos cc bcc name : string) : list str :=
  [lit to; lit adjuntos; lit cc; lit bcc; lit name].

(** Three rows: attachments and Bcc, nothing, and a Cc. *)
Definition tres : list (list str) :=
  [fila "u@x.com" "a.txt;nope.txt;i|img/logo.png" "" "c@x.com;d@x.com" "Ana";
   fila "v@x.com" "" "" "" "Bob";
   fila "w@x.com" "i|" "z@x.com" "" "Cy"].

(** A list of 401 rows, and the [Mail] of each of its blocks. *)
Definition muchos : list (list str) :=
  repeat (fila "v@x.com" "" "" "" "Bob") 401.

Definition mail_de (W : World) (elems_lista : list (list str)) (k : nat) : mail :=
  match MailerSendgrid.compilar_bloque W (cfg (lit "sendgrid"))
          (build_placeholders columnas) (lit "Hello ||name||") (lit "Body ||name|| text")
          (firstn 200 (skipn (k * 200) elems_lista)) with
  | Ok m => m
  | Raise _ => Mail [] ([], []) [] []
  end.

(** A world in which [locked.txt] is a file that cannot be read. *)
Definition world_locked : World :=
  let W := world (lit "smtp") columnas tres in
  {| isfile := fun p => str_eqb p (lit "locked.txt") || isfile W p;
     load_config := load_config W;
     read_texto := read_texto W;
     read_lista := read_lista W;
     guess_type := guess_type W;
     read_text := fun p =>
       if str_eqb p (lit "locked.txt")
       then Raise (EnvError (lit "PermissionError") (lit "[Errno 13] Permission denied"))
       else read_text W p;
     read_bytes := read_bytes W;
     smtp := smtp W;
     sendgrid_send := sendgrid_send W;
     re_from := re_from W;
     strftime_inicio := strftime_inicio W;
     strftime_total := strftime_total W |}.

End Example.

(* ================================================================== *)
(** * Notions used to state the properties *)
(* ================================================================== *)

Module Spec.

Definition pipe : ascii := "|"%char.

(** The substitution as a sequence of whole-string replacements: for each
    entry of the placeholder map, in its order, every occurrence of the
    token is replaced by the field of the row at the mapped column. *)
Definition merged (placeholders : list (str * nat)) (i : list str) (t : str) : str :=
  fold_left (fun t kv => replace t (fst kv) (nth (snd kv) i [])) placeholders t.

(** A value that cannot take part in an occurrence of the token [k]: it
    has no ['|'] and it has a character that [k] does not have. *)
Definition inert (v k : str) : bool :=
  negb (existsb (Ascii.eqb pipe) v) &&
  existsb (fun c => negb (existsb (Ascii.eqb c) k)) v.

(** A token begins and ends with ['|']. *)
Definition pipe_ended (k : str) : Prop :=
  (exists m, k = pipe :: m) /\ (exists m, k = m ++ [pipe]).

(** The tokens of a header row in the order of the columns, each once, at
    its first column; [seen] holds the tokens of the columns before. *)
Fixpoint first_tokens (seen : list str) (columnas : list str) : list str :=
  match columnas with
  | [] => []
  | x :: rest =>
      if is_placeholder x && negb (existsb (str_eqb x) seen)
      then x :: first_tokens (x :: seen) rest
      else first_tokens seen rest
  end.

(** No column of [l] is a placeholder. *)
Definition plain (l : list str) : bool :=
  forallb (fun x => negb (is_placeholder x)) l.

(** The blocks of the SENDGRID branch: their number for a list of
    [total] rows, the rows of block [k], and what block [k] prints and
    sends once its [Mail] [m] is compiled. *)
Definition n_bloques (total : nat) : nat :=
  (total + (MailerSendgrid.bloque_envios - 1)) / MailerSendgrid.bloque_envios.

Definition bloque (elems_lista : list (list str)) (k : nat) : list (list str) :=
  firstn MailerSendgrid.bloque_envios
         (skipn (k * MailerSendgrid.bloque_envios) elems_lista).

Definition eventos_bloque (W : World) (total : nat) (k : nat) (m : mail) : list event :=
  let elem_actual := k * MailerSendgrid.bloque_envios in
  [print [lit "Enviando correos"; str_of_nat (elem_actual + 1); lit "al";
          str_of_nat (Nat.min (elem_actual + MailerSendgrid.bloque_envios) total);
          lit "de"; str_of_nat total; lit "..."]]
  ++ MailerSendgrid.enviar_bloque W elem_actual m.

Definition is_sleep (e : event) : bool :=
  match e with
  | ESleep _ => true
  | _ => false
  end.

Definition sent_mail (e : event) : option mail :=
  match e with
  | ESendgrid m => Some m
  | _ => None
  end.

End Spec.

Import Spec.

(* ================================================================== *)
(** * The two reading loops

    The loops that read the template and the list (the same text in both
    scripts: [mailer.py] lines 117-141, [mailer_sendgrid.py] lines
    115-139), on the lines that [for linea in f] yields.  The fields
    [read_texto] and [read_lista] of a [World] stand for their results. *)
(* ================================================================== *)

Module Lectura.

(** [s.rstrip()] *)
Definition rstrip (s : str) : str := rev (MailerSendgrid.lstrip (rev s)).

(** One turn of the loop over the template:
<<
    if asunto is None:
        asunto=linea.strip()
    else:
        cuerpo=cuerpo+linea
>> *)
Definition texto_step (st : option str * str) (linea : str) : option str * str :=
  let '(asunto, cuerpo) := st in
  match asunto with
  | None => (Some (MailerSendgrid.strip linea), cuerpo)
  | Some _ => (asunto, cuerpo ++ linea)
  end.

(** [asunto] and [cuerpo] after the loop; [asunto] is [None] when the file
    has no line. *)
Definition leer_texto (lineas : list str) : option str * str :=
  fold_left texto_step lineas (None, []).

(** The variables [columnas], [placeholders] and [elems_lista]. *)
Record lista : Type := Lista {
  columnas : list str;
  placeholders : list (str * nat);
  elems_lista : list (list str)
}.

(** One turn of the loop over the list:
<<
    if len(columnas)==0:
        columnas=linea.rstrip().split(config['separador_csv'])
        for indice, valor in enumerate(columnas):
            if valor.startswith('||') and valor.endswith('||'):
                placeholders[valor]=indice
    else:
        elems_lista.append(linea.rstrip().split(config['separador_csv']))
>> *)
Definition lista_step (separador_csv : str) (st : lista) (linea : str) : result lista :=
  if List.length (columnas st) =? 0 then
    campos <- split (rstrip linea) separador_csv ;;
    Ok (Lista campos
              (fold_left placeholders_step (enumerate campos) (placeholders st))
              (elems_lista st))
  else
    campos <- split (rstrip linea) separador_csv ;;
    Ok (Lista (columnas st) (placeholders st) (elems_lista st ++ [campos])).

Fixpoint leer_lista_desde (separador_csv : str) (lineas : list str) (st : lista)
  : result lista :=
  match lineas with
  | [] => Ok st
  | linea :: rest =>
      st' <- lista_step separador_csv st linea ;;
      leer_lista_desde separador_csv rest st'
  end.

Definition leer_lista (separador_csv : str) (lineas : list str) : result lista :=
  leer_lista_desde separador_csv lineas (Lista [] [] []).

End Lectura.

(* ================================================================== *)
(** * More notions to state properties *)
(* ================================================================== *)

Module Notions.

(** [sep.join(l)] *)
Fixpoint join (sep : str) (l : list str) : str :=
  match l with
  | [] => []
  | x :: rest =>
      match rest with
      | [] => x
      | _ :: _ => x ++ sep ++ join sep rest
      end
  end.

(** The attachment names of a row, each once, as the SENDGRID branch
    counts them, and the number of rows of a block that name [j]. *)
Definition adjuntos_de (sep : str) (fila : list str) : list str :=
  MailerSendgrid.fromkeys [] (split_go sep 0 [] (nth 1 fila [])).

Definition filas_con (sep : str) (j : str) (bloque : list (list str)) : nat :=
  List.length (filter (fun fila => existsb (str_eqb j) (adjuntos_de sep fila)) bloque).

Definition is_sendmail (e : event) : bool :=
  match e with
  | ESendmail _ _ _ => true
  | _ => false
  end.

(** An event that reaches the outside: a message, an API call or a
    sleep; the rest is console output. *)
Definition is_print (e : event) : bool :=
  match e with
  | EPrint _ => true
  | _ => false
  end.

Definition count (f : event -> bool) (out : list event) : nat :=
  List.length (filter f out).

(** The class of part that [typed_part] takes for a main type. *)
Definition clase_de (maintype : str) : mime_class :=
  if str_eqb maintype (lit "text") then MIMEText None
  else if str_eqb maintype (lit "image") then MIMEImage
  else if str_eqb maintype (lit "audio") then MIMEAudio
  else MIMEBase_base64.

(** The line that the SENDGRID branch prints when it begins block [k]. *)
Definition anuncio_bloque (total k : nat) : event :=
  let elem_actual := k * MailerSendgrid.bloque_envios in
  print [lit "Enviando correos"; str_of_nat (elem_actual + 1); lit "al";
         str_of_nat (Nat.min (elem_actual + MailerSendgrid.bloque_envios) total);
         lit "de"; str_of_nat total; lit "..."].

(** The personalization that the SENDGRID branch makes of a row. *)
Definition personalizacion_de (sep : str) (placeholders : list (str * nat))
           (fila : list str) : personalization :=
  let fields := split_go sep 0 [] in
  let opt s := if str_eqb s [] then None else Some (fields s) in
  Personalization
    (fields (nth 0 fila []))
    (opt (nth 2 fila []))
    (opt (nth 3 fila []))
    (match placeholders with
     | [] => None
     | _ :: _ => Some (map (fun kv => (fst kv, nth (snd kv) fila [])) placeholders)
     end).

(** The map after the columns [pre]: each token of [pre] with its last
    column. *)
Definition last_columns (pre : list str) (d : list (str * nat)) : Prop :=
  NoDup (map fst d) /\
  forall k v, In (k, v) d <->
              is_placeholder k = true /\ nth_error pre v = Some k /\
              forall j, v < j -> nth_error pre j <> Some k.

End Notions.

Import Notions.

(* ================================================================== *)
(** * The definitions on concrete inputs *)
(* ================================================================== *)

Example replace_all_occurrences :
  replace (lit "Hello ||name||, ||name||!") (lit "||name||") (lit "Ana")
  = lit "Hello Ana, Ana!".
Proof. reflexivity. Qed.

Example replace_leftmost_first : replace (lit "aaa") (lit "aa") (lit "b") = lit "ba".
Proof. reflexivity. Qed.

Example replace_empty_old : replace (lit "ab") [] (lit "-") = lit "-a-b-".
Proof. reflexivity. Qed.

Example split_addresses :
  split (lit "a@x.com;b@x.com") (lit ";") = Ok [lit "a@x.com"; lit "b@x.com"].
Proof. reflexivity. Qed.

Example split_empty_field : split [] (lit ";") = Ok [[]].
Proof. reflexivity. Qed.

Example split_long_separator :
  split (lit "a, b, ") (lit ", ") = Ok [lit "a"; lit "b"; []].
Proof. reflexivity. Qed.

Example split_empty_separator :
  split (lit "a") [] = Raise (ValueError (lit "empty separator")).
Proof. reflexivity. Qed.

Example placeholders_of_header :
  build_placeholders Example.columnas = [(lit "||name||", 4)].
Proof. reflexivity. Qed.

(** A token that comes twice keeps the place of its first column and takes
    the index of its last one. *)
Example placeholders_repeated_token :
  build_placeholders [lit "||a||"; lit "||b||"; lit "||a||"]
  = [(lit "||a||", 2); (lit "||b||", 1)].
Proof. reflexivity. Qed.

Example basename_deep : NtPath.basename (lit "img/2020/logo.png") = lit "logo.png".
Proof. reflexivity. Qed.

Example basename_drive : NtPath.basename (lit "C:logo.png") = lit "logo.png".
Proof. reflexivity. Qed.

Example basename_unc : NtPath.basename (lit "//host/share/img/logo.png") = lit "logo.png".
Proof. reflexivity. Qed.

(** Template ["Hello ||name||"] / ["Body ||name|| text"] and the row of
    Ana. *)
Example merge_ana :
  substitute (build_placeholders Example.columnas)
             (Example.fila "u@x.com" "" "" "" "Ana")
             (lit "Hello ||name||") (lit "Body ||name|| text")
  = Ok (lit "Hello Ana", lit "Body Ana text").
Proof. reflexivity. Qed.

(** Three rows, the login of the second refused: two sent, one failed,
    status 2, and a sleep after each of the three. *)
Example run_of_three :
  let W := Example.world (lit "smtp") Example.columnas Example.tres in
  fst (Mailer.main W (Example.opts 1)) = 2 /\
  map (fun e => match e with
                | EPrint t => string_of_list_ascii t
                | ESendmail _ rcpt m =>
                    String.append "sendmail to "
                      (String.concat "," (map string_of_list_ascii rcpt))
                | ESendgrid _ => "send"%string
                | ESleep _ => "sleep"%string
                end)
      (skipn 2 (snd (Mailer.main W (Example.opts 1))))
  = ["[1/3] Enviando: u@x.com "; "sendmail to u@x.com,c@x.com,d@x.com";
     String.append "[OK]" (String "010" ""); "sleep";
     "[2/3] Enviando: v@x.com "; "[ERROR] ";
     String.append "authentication failed" (String "010" ""); "sleep";
     "[3/3] Enviando: w@x.com "; "sendmail to w@x.com,z@x.com";
     String.append "[OK]" (String "010" ""); "sleep";
     String "010" (String.append "Proceso completo. 2 correos enviados OK, 1 correos con error."
                                 (String "010" ""));
     string_of_list_ascii (lit "Duraci" ++ ["243"%char] ++ lit "n total: 00:00:03"
                               ++ ["010"%char])]%string.
Proof. cbv zeta. split; vm_compute; reflexivity. Qed.

(* ================================================================== *)
(** * Properties of the built-ins *)
(* ================================================================== *)

Lemma str_eqb_eq (a b : str) : str_eqb a b = true <-> a = b.
Proof.
  revert b; induction a as [|x a IH]; intros [|y b]; simpl;
    try (split; [discriminate | intros H; inversion H]); try tauto.
  rewrite andb_true_iff, Ascii.eqb_eq, IH.
  split; [intros [-> ->]; reflexivity | intros H; inversion H; auto].
Qed.

Lemma str_eqb_refl (a : str) : str_eqb a a = true.
Proof. apply str_eqb_eq; reflexivity. Qed.

Lemma str_eqb_neq (a b : str) : str_eqb a b = false <-> a <> b.
Proof.
  rewrite <- str_eqb_eq. destruct (str_eqb a b); split; congruence.
Qed.

Lemma startswith_spec (s p : str) :
  startswith s p = true <-> exists t, s = p ++ t.
Proof.
  revert s; induction p as [|a p IH]; intros s; simpl.
  - split; [intros _; exists s; reflexivity | reflexivity].
  - destruct s as [|b s].
    + split; [discriminate | intros [t H]; discriminate].
    + rewrite andb_true_iff, Ascii.eqb_eq, IH. split.
      * intros [-> [t ->]]. eauto.
      * intros [t H]. inversion H; subst. eauto.
Qed.

Lemma startswith_app (p t : str) : startswith (p ++ t) p = true.
Proof. apply startswith_spec; eauto. Qed.

Lemma contains_spec (s k : str) :
  contains s k = true <-> exists x y, s = x ++ k ++ y.
Proof.
  induction s as [|c s IH].
  - simpl. rewrite orb_false_r, startswith_spec. split.
    + intros [t H]. exists [], t. exact H.
    + intros (x & y & H). destruct x; simpl in H.
      * eauto.
      * discriminate.
  - cbn [contains]. rewrite orb_true_iff, startswith_spec, IH. split.
    + intros [[t H] | (x & y & H)].
      * exists [], t. exact H.
      * exists (c :: x), y. rewrite H. reflexivity.
    + intros (x & y & H). destruct x as [|c' x]; simpl in H.
      * left. eauto.
      * right. inversion H. eauto.
Qed.

Lemma contains_false (s k : str) :
  contains s k = false <-> forall x y, s <> x ++ k ++ y.
Proof.
  split.
  - intros H x y E.
    assert (contains s k = true) by (apply contains_spec; eauto). congruence.
  - intros H. destruct (contains s k) eqn:E; [|reflexivity].
    apply contains_spec in E. destruct E as (x & y & E). destruct (H x y E).
Qed.

Lemma replace_go_skip (old new : str) (n : nat) (s : str) :
  replace_go old new n s = replace_go old new 0 (skipn n s).
Proof.
  revert s; induction n as [|n IH]; intros s.
  - reflexivity.
  - destruct s as [|c s]; [reflexivity|]. simpl. apply IH.
Qed.

(** At an occurrence of [old], the scan writes [new] and goes on after the
    occurrence. *)
Lemma replace_match (old new s : str) :
  old <> [] -> replace (old ++ s) old new = new ++ replace s old new.
Proof.
  destruct old as [|a old]; [congruence|]. intros _.
  unfold replace. cbn [app replace_go].
  change (a :: old ++ s) with ((a :: old) ++ s).
  rewrite startswith_app. f_equal.
  rewrite replace_go_skip. cbn [List.length].
  replace (S (List.length old) - 1) with (List.length old) by lia.
  rewrite skipn_app, skipn_all, Nat.sub_diag. reflexivity.
Qed.

(** Where [old] does not start, the scan copies one character. *)
Lemma replace_nomatch (old new s : str) (c : ascii) :
  startswith (c :: s) old = false ->
  replace (c :: s) old new = c :: replace s old new.
Proof.
  destruct old as [|a old]; [discriminate|]. intros H.
  unfold replace. cbn [replace_go]. rewrite H. reflexivity.
Qed.

Lemma replace_nil (old new : str) : old <> [] -> replace [] old new = [].
Proof. destruct old; [congruence | reflexivity]. Qed.

(** The shape of a replacement: nothing to replace, or the text before the
    leftmost occurrence, [new], and the replacement of what follows it. *)
Lemma replace_decomp (old new s : str) :
  old <> [] ->
  (contains s old = false /\ replace s old new = s) \/
  (exists a b, s = a ++ old ++ b /\ contains a old = false /\
               replace s old new = a ++ new ++ replace b old new).
Proof.
  intros Hne. induction s as [|c s IH].
  - left. split; [|apply replace_nil; assumption].
    destruct old; [congruence | reflexivity].
  - destruct (startswith (c :: s) old) eqn:E.
    + right. apply startswith_spec in E. destruct E as [t E].
      exists [], t. rewrite E. split; [reflexivity|]. split.
      * destruct old; [congruence | reflexivity].
      * apply replace_match; assumption.
    + rewrite (replace_nomatch old new s c E).
      destruct IH as [[Hc Hr] | (a & b & Hs & Ha & Hr)].
      * left. cbn [contains]. rewrite E, Hc. split; [reflexivity | f_equal; exact Hr].
      * right. exists (c :: a), b. rewrite Hr. split; [rewrite Hs; reflexivity|].
        split; [|reflexivity].
        cbn [contains]. rewrite Ha, orb_false_r.
        destruct (startswith (c :: a) old) eqn:E'; [|reflexivity].
        apply startswith_spec in E'. destruct E' as [t E'].
        assert (startswith (c :: s) old = true).
        { apply startswith_spec. exists (t ++ old ++ b).
          rewrite Hs. change (c :: a ++ old ++ b) with ((c :: a) ++ old ++ b).
          rewrite E', <- app_assoc. reflexivity. }
        congruence.
Qed.

Lemma replace_absent (old new s : str) :
  old <> [] -> contains s old = false -> replace s old new = s.
Proof.
  intros Hne Hc.
  destruct (replace_decomp old new s Hne) as [[_ Hr] | (a & b & Hs & _ & _)]; [exact Hr|].
  assert (contains s old = true) by (apply contains_spec; eauto). congruence.
Qed.

Lemma replace_self (old new : str) : old <> [] -> replace old old new = new.
Proof.
  intros Hne. rewrite <- (app_nil_r old) at 1.
  rewrite replace_match, replace_nil, app_nil_r by assumption. reflexivity.
Qed.

Lemma contains_middle (x y z k : str) :
  contains (x ++ y ++ z) k = false -> contains y k = false.
Proof.
  rewrite !contains_false. intros H a b E. subst y.
  apply (H (x ++ a) (b ++ z)). rewrite <- !app_assoc. reflexivity.
Qed.

Lemma contains_prefix (x z k : str) :
  contains (x ++ z) k = false -> contains x k = false.
Proof.
  intros H. apply (contains_middle [] x z). exact H.
Qed.

Lemma contains_suffix (x z k : str) :
  contains (x ++ z) k = false -> contains z k = false.
Proof.
  intros H. apply (contains_middle x z []). rewrite app_nil_r. exact H.
Qed.

Lemma contains_app_l (x z k : str) :
  contains x k = true -> contains (x ++ z) k = true.
Proof.
  rewrite !contains_spec. intros (a & b & ->). exists a, (b ++ z).
  rewrite <- !app_assoc. reflexivity.
Qed.

Lemma contains_app_r (x z k : str) :
  contains z k = true -> contains (x ++ z) k = true.
Proof.
  rewrite !contains_spec. intros (a & b & ->). exists (x ++ a), b.
  rewrite <- !app_assoc. reflexivity.
Qed.

(** ** Values that cannot rebuild a token *)

Lemma last_app_cons {A} (l m : list A) (x d : A) :
  last (l ++ x :: m) d = last (x :: m) d.
Proof.
  induction l as [|y l IH]; [reflexivity|].
  rewrite <- IH.
  change ((y :: l) ++ x :: m) with (y :: (l ++ x :: m)).
  destruct (l ++ x :: m) eqn:E; [|reflexivity].
  destruct l; discriminate.
Qed.

Lemma inert_spec (v k : str) :
  inert v k = true <-> ~ In pipe v /\ exists c, In c v /\ ~ In c k.
Proof.
  unfold inert. rewrite andb_true_iff, negb_true_iff, existsb_exists. split.
  - intros [Hp (c & Hc & Hk)]. split.
    + intros Hin. assert (existsb (Ascii.eqb pipe) v = true); [|congruence].
      apply existsb_exists. exists pipe. split; [assumption | apply Ascii.eqb_refl].
    + exists c. split; [assumption|]. intros Hin.
      apply negb_true_iff in Hk.
      assert (existsb (Ascii.eqb c) k = true); [|congruence].
      apply existsb_exists. exists c. split; [assumption | apply Ascii.eqb_refl].
  - intros [Hp (c & Hc & Hk)]. split.
    + destruct (existsb (Ascii.eqb pipe) v) eqn:E; [|reflexivity].
      apply existsb_exists in E. destruct E as (x & Hx & E).
      apply Ascii.eqb_eq in E. subst x. contradiction.
    + exists c. split; [assumption|]. apply negb_true_iff.
      destruct (existsb (Ascii.eqb c) k) eqn:E; [|reflexivity].
      apply existsb_exists in E. destruct E as (x & Hx & E).
      apply Ascii.eqb_eq in E. subst x. contradiction.
Qed.

(** An inert value between two texts without the token [k] does not make
    an occurrence of [k]: an occurrence that is neither in [a] nor in [r]
    would begin in [v], end in [v], or cover [v]. *)
Lemma contains_glue (a v r k : str) :
  pipe_ended k -> inert v k = true ->
  contains a k = false -> contains r k = false ->
  contains (a ++ v ++ r) k = false.
Proof.
  intros [[m1 Hfirst] [m2 Hlast]] Hv Ha Hr.
  apply inert_spec in Hv. destruct Hv as [Hpipe (c & Hcv & Hck)].
  apply contains_false. intros x y E.
  rewrite contains_false in Ha, Hr.
  apply app_eq_app in E. destruct E as [l [[E1 E2] | [E1 E2]]].
  - (* the occurrence begins in [a] *)
    apply app_eq_app in E2. destruct E2 as [m [[E2 E3] | [E2 E3]]].
    + (* and ends after [a] *)
      destruct m as [|c0 m].
      * rewrite app_nil_r in E2. subst l. apply (Ha x []).
        rewrite app_nil_r. exact E1.
      * apply app_eq_app in E3. destruct E3 as [n [[E3 E4] | [E3 E4]]].
        -- (* it ends in [v] *)
           apply Hpipe. rewrite E3. apply in_or_app. left.
           assert (Hl : last (c0 :: m) pipe = pipe).
           { assert (Hk : last k pipe = pipe) by (rewrite Hlast; apply last_last).
             rewrite E2, last_app_cons in Hk. exact Hk. }
           rewrite <- Hl.
           rewrite (app_removelast_last pipe (l:=c0 :: m)) at 2 by discriminate.
           apply in_elt.
        -- (* it covers [v] *)
           apply Hck. rewrite E2, E3. rewrite !in_app_iff. auto.
    + apply (Ha x m). rewrite E1, E2. reflexivity.
  - (* the occurrence begins after [a] *)
    apply app_eq_app in E2. destruct E2 as [m [[E2 E3] | [E2 E3]]].
    + (* in [v] *)
      destruct m as [|c0 m].
      * apply (Hr [] y). exact (eq_sym E3).
      * apply Hpipe. rewrite E2. apply in_or_app. right.
        rewrite Hfirst in E3. inversion E3. left. reflexivity.
    + apply (Hr m y). exact E3.
Qed.

Lemma pipe_ended_nonempty (k : str) : pipe_ended k -> k <> [].
Proof. intros [[m ->] _]. discriminate. Qed.

(** Replacing [k] by an inert value leaves no occurrence of a token [k']
    that is [k] itself or that the text did not have. *)
Lemma replace_clean (k v k' : str) :
  k <> [] -> pipe_ended k' -> inert v k' = true ->
  forall n t, length t <= n ->
    k' = k \/ contains t k' = false ->
    contains (replace t k v) k' = false.
Proof.
  intros Hk Hk' Hv. induction n as [|n IH]; intros t Hlen Hor.
  - destruct t; [|simpl in Hlen; lia].
    rewrite replace_nil by assumption.
    destruct Hk' as [[m ->] _]. reflexivity.
  - destruct (replace_decomp k v t Hk) as [[Hc Hr] | (a & b & Ht & Ha & Hr)].
    + rewrite Hr. destruct Hor as [-> | H]; assumption.
    + rewrite Hr. apply contains_glue; try assumption.
      * destruct Hor as [-> | H]; [assumption|].
        rewrite Ht in H. exact (contains_prefix _ _ _ H).
      * apply IH.
        -- rewrite Ht, !length_app in Hlen.
           destruct k; [congruence | simpl in Hlen; lia].
        -- destruct Hor as [-> | H]; [left; reflexivity | right].
           rewrite Ht in H.
           exact (contains_suffix _ _ _ (contains_suffix _ _ _ H)).
Qed.

(** ** The placeholder map *)

Lemma is_placeholder_pipe_ended (k : str) :
  is_placeholder k = true -> pipe_ended k.
Proof.
  unfold is_placeholder, endswith. rewrite andb_true_iff, !startswith_spec.
  intros [[t Ht] [u Hu]]. split.
  - exists (pipe :: t). exact Ht.
  - exists (rev u ++ [pipe]).
    rewrite <- (rev_involutive k), Hu. reflexivity.
Qed.

Lemma dict_set_keys {V} (d : list (str * V)) (k : str) (v : V) (k' : str) :
  In k' (map fst (dict_set d k v)) -> k' = k \/ In k' (map fst d).
Proof.
  induction d as [|[k0 v0] d IH]; simpl.
  - intros [H | []]. left. symmetry. exact H.
  - destruct (str_eqb k0 k) eqn:E; simpl.
    + tauto.
    + intros [H | H]; [tauto|]. destruct (IH H); tauto.
Qed.

Lemma placeholders_fold_keys (l : list (nat * str)) (d : list (str * nat)) (k : str) :
  In k (map fst (fold_left placeholders_step l d)) ->
  In k (map fst d) \/ is_placeholder k = true.
Proof.
  revert d; induction l as [|[n x] l IH]; intros d; simpl.
  - tauto.
  - intros H. apply IH in H. destruct H as [H | H]; [|tauto].
    destruct (is_placeholder x) eqn:E; [|tauto].
    apply dict_set_keys in H. destruct H as [-> | H]; tauto.
Qed.

(** Every key of the placeholder map begins and ends with ["||"]. *)
Lemma placeholders_keys (columnas : list str) (k : str) :
  In k (map fst (build_placeholders columnas)) -> is_placeholder k = true.
Proof.
  intros H. apply placeholders_fold_keys in H. destruct H as [[] | H]. exact H.
Qed.

(** ** The substitution loop *)

Lemma getitem_nth {A} (l : list A) (n : nat) (d : A) :
  n < length l -> getitem l n = Ok (nth n l d).
Proof.
  intros H. unfold getitem.
  destruct (nth_error l n) eqn:E.
  - rewrite (nth_error_nth l n d E). reflexivity.
  - apply nth_error_None in E. lia.
Qed.

(** On a row that has every mapped column, the loop is the sequence of
    replacements. *)
Lemma substitute_merged (P : list (str * nat)) (i : list str) (asunto cuerpo : str) :
  (forall k v, In (k, v) P -> v < length i) ->
  substitute P i asunto cuerpo = Ok (merged P i asunto, merged P i cuerpo).
Proof.
  revert asunto cuerpo; induction P as [|[k v] P IH]; intros asunto cuerpo H.
  - reflexivity.
  - cbn [substitute]. rewrite (getitem_nth i v []) by (apply (H k); left; reflexivity).
    cbn [bind]. rewrite IH by (intros k' v' Hin; apply (H k'); right; exact Hin).
    reflexivity.
Qed.

(** With inert values, the tokens that are gone stay gone and each step
    removes its own token. *)
Lemma merged_clean (P : list (str * nat)) (i : list str) :
  forall (done : list str) (t : str),
    (forall k, In k (done ++ map fst P) -> pipe_ended k) ->
    (forall k v k', In (k, v) P -> In k' (done ++ map fst P) ->
                    inert (nth v i []) k' = true) ->
    (forall k, In k done -> contains t k = false) ->
    forall k, In k (done ++ map fst P) -> contains (merged P i t) k = false.
Proof.
  induction P as [|[k0 v0] P IH]; intros done t Hpe Hin Hdone k Hk.
  - simpl in Hk. rewrite app_nil_r in Hk. simpl. auto.
  - cbn [merged fold_left fst snd].
    change (fold_left _ P ?x) with (merged P i x).
    assert (Hperm : forall x, In x ((done ++ [k0]) ++ map fst P) <->
                              In x (done ++ map fst ((k0, v0) :: P))).
    { intros x. rewrite <- app_assoc. reflexivity. }
    apply (IH (done ++ [k0])).
    + intros x Hx. apply Hpe, Hperm, Hx.
    + intros x v x' Hx Hx'. apply (Hin x); [right; exact Hx | apply Hperm, Hx'].
    + intros x Hx.
      assert (Hx' : In x (done ++ map fst ((k0, v0) :: P))).
      { apply in_app_iff. apply in_app_iff in Hx. simpl.
        destruct Hx as [Hx | [Hx | []]]; auto. }
      apply (replace_clean k0 (nth v0 i []) x) with (n := length t).
      * apply pipe_ended_nonempty, Hpe, in_app_iff. right. left. reflexivity.
      * apply Hpe, Hx'.
      * apply (Hin k0); [left; reflexivity | exact Hx'].
      * lia.
      * apply in_app_iff in Hx. destruct Hx as [Hx | [Hx | []]]; auto.
    + apply Hperm, Hk.
Qed.

(* ================================================================== *)
(** * C1: what the substitution leaves of the tokens *)
(* ================================================================== *)

(** C1, as amended.  For every template and every placeholder map built
    from the header row, merging a row that has every mapped column
    succeeds, and subject and body are the template after the replacement,
    for each token in the map's order, of all its occurrences by the field
    at the mapped column.  When no substituted field has a ['|'] and each
    has, for every token, a character that the token does not have, no
    occurrence of any token remains in the subject or in the body. *)
Theorem merge_replaces_tokens (columnas i : list str) (asunto cuerpo : str) :
  let P := build_placeholders columnas in
  (forall k v, In (k, v) P -> v < length i) ->
  substitute P i asunto cuerpo = Ok (merged P i asunto, merged P i cuerpo) /\
  ((forall k v k', In (k, v) P -> In k' (map fst P) ->
                   inert (nth v i []) k' = true) ->
   forall k, In k (map fst P) ->
     contains (merged P i asunto) k = false /\
     contains (merged P i cuerpo) k = false).
Proof.
  intros P Hlen. split.
  - apply substitute_merged. exact Hlen.
  - intros Hinert k Hk.
    assert (Hpe : forall x, In x ([] ++ map fst P) -> pipe_ended x).
    { intros x Hx. apply is_placeholder_pipe_ended, (placeholders_keys columnas), Hx. }
    split; apply (merged_clean P i [] _ Hpe); auto; intros x [].
Qed.

Lemma merge_replaces_tokens_witness :
  let columnas := [lit "to"; lit "attach"; lit "cc"; lit "bcc"; lit "||name||"] in
  let i := [lit "u@x.com"; []; []; []; lit "Ana"] in
  let P := build_placeholders columnas in
  substitute P i (lit "Hello ||name||") (lit "Body ||name|| text")
  = Ok (lit "Hello Ana", lit "Body Ana text") /\
  contains (lit "Hello Ana") (lit "||name||") = false /\
  contains (lit "Body Ana text") (lit "||name||") = false.
Proof.
  pose (columnas := [lit "to"; lit "attach"; lit "cc"; lit "bcc"; lit "||name||"]).
  pose (i := [lit "u@x.com"; []; []; []; lit "Ana"]).
  assert (Hlen : forall k v, In (k, v) (build_placeholders columnas) -> v < length i).
  { intros k v [H | []]. inversion H. simpl. lia. }
  destruct (merge_replaces_tokens columnas i (lit "Hello ||name||")
              (lit "Body ||name|| text") Hlen) as [Hs Hc].
  split; [exact Hs|].
  apply Hc.
  - intros k v k' [H | []] [H' | []]. inversion H. subst. reflexivity.
  - left. reflexivity.
Defined.

(** C1 as it is stated fails: a field that holds the token puts it back. *)
Lemma merge_leaves_token :
  let columnas := [lit "to"; lit "attach"; lit "cc"; lit "bcc"; lit "||a||"] in
  let i := [lit "u@x.com"; []; []; []; lit "||a||"] in
  let P := build_placeholders columnas in
  P = [(lit "||a||", 4)] /\ 4 < length i /\
  substitute P i (lit "Hi ||a||") (lit "Dear ||a||,")
  = Ok (lit "Hi ||a||", lit "Dear ||a||,") /\
  contains (lit "Hi ||a||") (lit "||a||") = true /\
  contains (lit "Dear ||a||,") (lit "||a||") = true.
Proof.
  cbv zeta. repeat split; try reflexivity. simpl. lia.
Qed.

(* ================================================================== *)
(** * C9: the substitution is sequential, in the order of the columns *)
(* ================================================================== *)

Lemma str_eqb_sym (a b : str) : str_eqb a b = str_eqb b a.
Proof.
  destruct (str_eqb a b) eqn:E.
  - apply str_eqb_eq in E. subst. symmetry. apply str_eqb_refl.
  - symmetry. apply str_eqb_neq. apply str_eqb_neq in E. congruence.
Qed.

Lemma dict_set_keys_eq {V} (d : list (str * V)) (k : str) (v : V) :
  map fst (dict_set d k v) =
  if existsb (str_eqb k) (map fst d) then map fst d else map fst d ++ [k].
Proof.
  induction d as [|[k0 v0] d IH]; [reflexivity|].
  cbn [dict_set map fst existsb]. rewrite (str_eqb_sym k k0).
  destruct (str_eqb k0 k); [reflexivity|].
  cbn [orb map fst]. rewrite IH.
  destruct (existsb (str_eqb k) (map fst d)); reflexivity.
Qed.

Lemma first_tokens_ext (l : list str) :
  forall seen seen',
    (forall x, existsb (str_eqb x) seen = existsb (str_eqb x) seen') ->
    first_tokens seen l = first_tokens seen' l.
Proof.
  induction l as [|x l IH]; intros seen seen' H; [reflexivity|].
  cbn [first_tokens]. rewrite (H x).
  destruct (is_placeholder x && negb (existsb (str_eqb x) seen')).
  - f_equal. apply IH. intros y. cbn [existsb]. rewrite (H y). reflexivity.
  - apply IH, H.
Qed.

Lemma placeholders_fold_order (l : list str) :
  forall n d,
    map fst (fold_left placeholders_step (enumerate_from n l) d)
    = map fst d ++ first_tokens (map fst d) l.
Proof.
  induction l as [|x l IH]; intros n d.
  - simpl. rewrite app_nil_r. reflexivity.
  - cbn [enumerate_from fold_left placeholders_step first_tokens].
    rewrite IH. destruct (is_placeholder x); cbn [andb]; [|reflexivity].
    rewrite dict_set_keys_eq.
    destruct (existsb (str_eqb x) (map fst d)) eqn:E; cbn [negb]; [reflexivity|].
    rewrite <- app_assoc. cbn [app]. do 2 f_equal.
    apply first_tokens_ext. intros y.
    rewrite existsb_app. cbn [existsb]. rewrite orb_false_r, orb_comm. reflexivity.
Qed.

(** The keys of the placeholder map are the tokens of the header row in
    the order of their first columns. *)
Lemma placeholders_order (columnas : list str) :
  map fst (build_placeholders columnas) = first_tokens [] columnas.
Proof. apply (placeholders_fold_order columnas 0 []). Qed.

Lemma enumerate_from_app {A} (l1 l2 : list A) (n : nat) :
  enumerate_from n (l1 ++ l2)
  = enumerate_from n l1 ++ enumerate_from (n + length l1) l2.
Proof.
  revert n; induction l1 as [|x l1 IH]; intros n; simpl.
  - rewrite Nat.add_0_r. reflexivity.
  - rewrite IH. do 3 f_equal. lia.
Qed.

Lemma placeholders_fold_plain (l : list str) (n : nat) (d : list (str * nat)) :
  plain l = true ->
  fold_left placeholders_step (enumerate_from n l) d = d.
Proof.
  revert n; induction l as [|x l IH]; intros n H; [reflexivity|].
  simpl in H. apply andb_true_iff in H. destruct H as [Hx Hl].
  cbn [enumerate_from fold_left placeholders_step].
  apply negb_true_iff in Hx. rewrite Hx. apply IH, Hl.
Qed.

(** A header row with two tokens, [a] before [b]. *)
Lemma placeholders_two (pre mid post : list str) (a b : str) :
  plain pre = true -> plain mid = true -> plain post = true ->
  is_placeholder a = true -> is_placeholder b = true -> a <> b ->
  build_placeholders (pre ++ a :: mid ++ b :: post)
  = [(a, length pre); (b, S (length pre + length mid))].
Proof.
  intros Hpre Hmid Hpost Ha Hb Hab. unfold build_placeholders, enumerate.
  rewrite enumerate_from_app, fold_left_app.
  rewrite (placeholders_fold_plain pre) by assumption.
  cbn [enumerate_from fold_left placeholders_step]. rewrite Ha.
  rewrite enumerate_from_app, fold_left_app.
  rewrite (placeholders_fold_plain mid) by assumption.
  cbn [enumerate_from fold_left placeholders_step]. rewrite Hb.
  rewrite (placeholders_fold_plain post) by assumption.
  cbn [dict_set]. apply str_eqb_neq in Hab. rewrite Hab.
  reflexivity.
Qed.



(* ================================================================== *)
(** * Attachments: C10, C7 and C6 *)
(* ================================================================== *)

(** ** [ntpath.basename] *)

Lemma splitdrive_app (p : str) :
  fst (NtPath.splitdrive p) ++ snd (NtPath.splitdrive p) = p.
Proof.
  unfold NtPath.splitdrive.
  destruct (2 <=? length p); [|reflexivity].
  destruct (str_eqb _ _ && _).
  - destruct (NtPath.find_sep _ 2) as [index|]; [|reflexivity].
    destruct (NtPath.find_sep _ (index + 1)) as [index2|].
    + destruct (index2 =? index + 1); [reflexivity|]. apply firstn_skipn.
    + apply app_nil_r.
  - destruct (str_eqb _ _); [apply firstn_skipn | reflexivity].
Qed.

Lemma tail_no_sep (q : str) :
  forallb (fun c => negb (NtPath.is_sep c)) (firstn (NtPath.tail_length q) q) = true.
Proof.
  induction q as [|c q IH]; [reflexivity|].
  cbn [NtPath.tail_length]. destruct (NtPath.is_sep c) eqn:E; [reflexivity|].
  cbn [firstn forallb]. rewrite E, IH. reflexivity.
Qed.

(** [basename(p)] has no separator and is the end of [p]. *)
Lemma basename_terminal (p : str) :
  forallb (fun c => negb (NtPath.is_sep c)) (NtPath.basename p) = true /\
  exists dir, p = dir ++ NtPath.basename p.
Proof.
  unfold NtPath.basename, NtPath.split_tail.
  set (r := snd (NtPath.splitdrive p)). split.
  - assert (H : skipn (length r - NtPath.tail_length (rev r)) r
                = rev (firstn (NtPath.tail_length (rev r)) (rev r))).
    { rewrite firstn_rev, rev_involutive. reflexivity. }
    rewrite H. rewrite forallb_forall. intros c Hc. apply in_rev in Hc.
    pose proof (tail_no_sep (rev r)) as Hall.
    rewrite forallb_forall in Hall. apply Hall, Hc.
  - exists (fst (NtPath.splitdrive p)
            ++ firstn (length r - NtPath.tail_length (rev r)) r).
    rewrite <- app_assoc, firstn_skipn. symmetry. apply splitdrive_app.
Qed.

(** ** C10: the inline marker *)

(** C10.  The marker is recognized exactly when the specifier is longer
    than two characters and its first two are ["i|"]: then the path is the
    rest and the disposition is inline.  Otherwise, and so for ["i|"]
    itself and for anything shorter, the disposition is attachment and the
    path is the specifier. *)
Theorem inline_marker_recognized (filename : str) :
  (snd (Mailer.inline_marker filename) = Mailer.Inline <->
   2 < length filename /\ firstn 2 filename = lit "i|") /\
  Mailer.inline_marker filename
  = (if (2 <? length filename) && str_eqb (firstn 2 filename) (lit "i|")
     then (skipn 2 filename, Mailer.Inline)
     else (filename, Mailer.Attachment)) /\
  (length filename <= 2 ->
   Mailer.inline_marker filename = (filename, Mailer.Attachment) /\
   forall W, Mailer.attachment_part W filename
             = if negb (isfile W filename) then Ok None
               else msg <- typed_part W filename ;;
                    Ok (Some (Mailer.attachment_headers msg filename Mailer.Attachment))).
Proof.
  unfold Mailer.attachment_part, Mailer.inline_marker.
  split; [|split; [reflexivity|]].
  - destruct (2 <? length filename) eqn:E1; cbn [andb].
    + apply Nat.ltb_lt in E1.
      destruct (str_eqb (firstn 2 filename) (lit "i|")) eqn:E2; cbn [snd].
      * apply str_eqb_eq in E2. tauto.
      * apply str_eqb_neq in E2. split; [discriminate | tauto].
    + apply Nat.ltb_ge in E1. cbn [snd]. split; [discriminate | lia].
  - intros Hlen. apply Nat.ltb_ge in Hlen. rewrite Hlen. cbn [andb].
    split; reflexivity.
Qed.

Lemma inline_marker_recognized_witness :
  Mailer.inline_marker (lit "i|") = (lit "i|", Mailer.Attachment) /\
  Mailer.inline_marker (lit "i|a") = (lit "a", Mailer.Inline).
Proof.
  split.
  - refine (proj1 (proj2 (proj2 (inline_marker_recognized (lit "i|"))) _)).
    simpl. lia.
  - exact (proj1 (proj2 (inline_marker_recognized (lit "i|a")))).
Defined.

(** ** C7: a specifier that is not a file *)



(** ** C6: the headers of an attachment *)

Lemma typed_part_headers (W : World) (path : str) (msg : part) :
  typed_part W path = Ok msg -> part_headers msg = [].
Proof.
  unfold typed_part. destruct (guess_type W path) as [ctype encoding].
  destruct (unpack2 _ _) as [[maintype subtype]|e]; cbn [bind]; [|discriminate].
  destruct (str_eqb maintype (lit "text")).
  { destruct (read_text W path); cbn [bind]; intros H; inversion H; reflexivity. }
  destruct (str_eqb maintype (lit "image")).
  { destruct (read_bytes W path); cbn [bind]; intros H; inversion H; reflexivity. }
  destruct (str_eqb maintype (lit "audio")).
  { destruct (read_bytes W path); cbn [bind]; intros H; inversion H; reflexivity. }
  destruct (read_bytes W path); cbn [bind]; intros H; inversion H; reflexivity.
Qed.




(* ================================================================== *)
(** * C3: envelope recipients and headers *)
(* ================================================================== *)

Lemma attach_files_headers (W : World) (filenames : list str) :
  forall outer composed,
    Mailer.attach_files W filenames outer = Ok composed ->
    m_headers composed = m_headers outer.
Proof.
  induction filenames as [|f l IH]; intros outer composed H.
  - inversion H. reflexivity.
  - cbn [Mailer.attach_files] in H.
    destruct (Mailer.attachment_part W f) as [[msg|]|e]; cbn [bind] in H.
    + apply IH in H. exact H.
    + apply IH in H. exact H.
    + discriminate.
Qed.

(** C3, as amended.  For a row with its four fixed fields, a non-empty
    sub-delimiter and attachments that can be read, the message is
    composed and, once the server accepts connection, STARTTLS and login,
    handed to the transport with the envelope recipients: the To field
    split on the sub-delimiter, then the Cc field split when it is not
    empty, then the Bcc field split when it is not empty.  The message
    has one To header, which is field 0, a Cc header with field 2 when it
    is not empty and, when field 3 is not empty, a Bcc header with that
    field: the message is sent as composed, with its Bcc header. *)
Theorem envelope_recipients
        (W : World) (cfg : Config) (to adjuntos cc bcc : str) (extra : list str)
        (elem_asunto elem_cuerpo : str) (n : nat) (composed : message) :
  let i := to :: adjuntos :: cc :: bcc :: extra in
  let fields := split_go (separador_subcampos cfg) 0 [] in
  let rcpt := fields to ++ (if str_eqb cc [] then [] else fields cc)
                        ++ (if str_eqb bcc [] then [] else fields bcc) in
  let headers :=
    [Header (lit "Content-Type") (lit "multipart/mixed") [];
     Header (lit "MIME-Version") (lit "1.0") [];
     Header (lit "Subject") elem_asunto [];
     Header (lit "To") to []]
    ++ (if str_eqb cc [] then [] else [Header (lit "Cc") cc []])
    ++ (if str_eqb bcc [] then [] else [Header (lit "Bcc") bcc []])
    ++ [Header (lit "From") (from_email cfg) []] in
  let body := Part (MIMEText (Some (lit "UTF-8"))) (lit "text") (lit "html") elem_cuerpo [] in
  separador_subcampos cfg <> [] ->
  Mailer.attach_files W (fields adjuntos) (Message headers [body]) = Ok composed ->
  smtp W n (Connect (servidor_smtp cfg) (timeout cfg)) = None ->
  smtp W n StartTLS = None ->
  smtp W n (Login (username cfg) (password cfg)) = None ->
  compose Mailer.attach_files W cfg i elem_asunto elem_cuerpo = Ok (rcpt, composed) /\
  fst (try_block Mailer.attach_files W cfg n i elem_asunto elem_cuerpo)
  = [ESendmail (from_email cfg) rcpt composed] /\
  m_headers composed = headers /\
  (bcc <> [] -> In (Header (lit "Bcc") bcc []) (m_headers composed)).
Proof.
  intros i fields rcpt headers body Hsep Hatt Hc Ht Hl.
  assert (Hcompose : compose Mailer.attach_files W cfg i elem_asunto elem_cuerpo
                     = Ok (rcpt, composed)).
  { unfold compose, i, rcpt, headers, fields, body, split in *.
    destruct (separador_subcampos cfg) as [|c sep]; [congruence|].
    cbn [getitem nth_error bind].
    destruct (str_eqb cc []), (str_eqb bcc []); cbn [negb bind app] in *;
      unfold set_header, attach, MIMEMultipart; cbn [m_headers m_parts app];
      rewrite ?app_nil_r; cbn [app] in *; rewrite Hatt; cbn [bind];
      rewrite <- ?app_assoc; reflexivity. }
  pose proof (attach_files_headers W _ _ _ Hatt) as Hh. cbn [m_headers] in Hh.
  split; [exact Hcompose|]. split; [|split; [exact Hh|]].
  - unfold try_block. rewrite Hcompose. unfold session, step.
    rewrite Hc, Ht, Hl. reflexivity.
  - intros Hb. rewrite Hh. unfold headers.
    apply str_eqb_neq in Hb. rewrite Hb.
    rewrite !in_app_iff. right. right. left. left. reflexivity.
Qed.

Lemma envelope_recipients_witness :
  let W := Example.world (lit "smtp") Example.columnas Example.tres in
  let i := Example.fila "a@x.com;b@x.com" "" "c@x.com" "" "Ana" in
  exists composed,
    fst (try_block Mailer.attach_files W (Example.cfg (lit "smtp")) 1 i
                   (lit "Hello Ana") (lit "Body Ana text"))
    = [ESendmail (lit "Me <me@x.com>")
                 [lit "a@x.com"; lit "b@x.com"; lit "c@x.com"] composed] /\
    m_headers composed
    = [Header (lit "Content-Type") (lit "multipart/mixed") [];
       Header (lit "MIME-Version") (lit "1.0") [];
       Header (lit "Subject") (lit "Hello Ana") [];
       Header (lit "To") (lit "a@x.com;b@x.com") [];
       Header (lit "Cc") (lit "c@x.com") [];
       Header (lit "From") (lit "Me <me@x.com>") []].
Proof.
  intros W i.
  assert (Hsep : separador_subcampos (Example.cfg (lit "smtp")) <> []) by discriminate.
  eexists.
  destruct (envelope_recipients W (Example.cfg (lit "smtp"))
              (lit "a@x.com;b@x.com") [] (lit "c@x.com") [] [lit "Ana"]
              (lit "Hello Ana") (lit "Body Ana text") 1 _
              Hsep eq_refl eq_refl eq_refl eq_refl) as (_ & Hsend & Hh & _).
  split; [exact Hsend | exact Hh].
Defined.

(** C3 as it is stated fails in its last part: the message handed to the
    transport for a row with a Bcc field has a Bcc header with the
    addresses. *)
Lemma bcc_header_is_sent :
  let W := Example.world (lit "smtp") Example.columnas Example.tres in
  let i := Example.fila "a@x.com" "" "" "c@x.com" "Ana" in
  exists composed,
    fst (try_block Mailer.attach_files W (Example.cfg (lit "smtp")) 1 i
                   (lit "Hello Ana") (lit "Body Ana text"))
    = [ESendmail (lit "Me <me@x.com>") [lit "a@x.com"; lit "c@x.com"] composed] /\
    In (Header (lit "Bcc") (lit "c@x.com") []) (m_headers composed).
Proof.
  cbv zeta. eexists. split; [reflexivity|].
  cbn. right. right. right. right. left. reflexivity.
Qed.

(* ================================================================== *)
(** * The sending loop: C4 and C2 *)
(* ================================================================== *)

Section LoopFacts.

Variable attach_files : World -> list str -> message -> result message.
Variable W : World.
Variable cfg : Config.
Variable opts : Opts.
Variable placeholders : list (str * nat).
Variables asunto cuerpo : str.
Variable total_elems : nat.

Local Abbreviation run_ := (run attach_files W cfg opts placeholders asunto cuerpo total_elems).
Local Abbreviation process_ :=
  (process_record attach_files W cfg opts placeholders asunto cuerpo total_elems).
Local Abbreviation try_ := (try_block attach_files W cfg).
Local Abbreviation compose_ := (compose attach_files W cfg).

(** Whatever raises between the composition and [quit] is what the [try]
    block raises. *)
Lemma try_block_raises (n : nat) (i : list str) (elem_asunto elem_cuerpo : str) (e : exn) :
  (compose_ i elem_asunto elem_cuerpo = Raise e \/
   exists rcpt composed,
     compose_ i elem_asunto elem_cuerpo = Ok (rcpt, composed) /\
     (smtp W n (Connect (servidor_smtp cfg) (timeout cfg)) = Some e \/
      smtp W n (Connect (servidor_smtp cfg) (timeout cfg)) = None /\
      (smtp W n StartTLS = Some e \/
       smtp W n StartTLS = None /\
       (smtp W n (Login (username cfg) (password cfg)) = Some e \/
        smtp W n (Login (username cfg) (password cfg)) = None /\
        (smtp W n (Sendmail (from_email cfg) rcpt composed) = Some e \/
         smtp W n (Sendmail (from_email cfg) rcpt composed) = None /\
         smtp W n Quit = Some e))))) ->
  snd (try_ n i elem_asunto elem_cuerpo) = Raise e.
Proof.
  unfold try_block, session, step.
  intros [H | (rcpt & composed & H & Hs)]; rewrite H; [reflexivity|].
  destruct Hs as [-> | [-> Hs]]; [reflexivity|].
  destruct Hs as [-> | [-> Hs]]; [reflexivity|].
  destruct Hs as [-> | [-> Hs]]; [reflexivity|].
  destruct Hs as [-> | [-> ->]]; reflexivity.
Qed.

(** One turn of the loop, once the substitution is done and with a delay
    that is not negative. *)
Lemma process_record_next (st : state) (i : list str)
      (elem_asunto elem_cuerpo to : str) (evs : list event) (r : result unit) :
  (0 <= delay opts)%Z ->
  substitute placeholders i asunto cuerpo = Ok (elem_asunto, elem_cuerpo) ->
  getitem i 0 = Ok to ->
  try_ (elem_actual st + 1) i elem_asunto elem_cuerpo = (evs, r) ->
  process_ st i
  = Next (match r with
          | Ok _ =>
              State (elem_actual st + 1) (envios_ok st + 1) (envios_error st)
                    (out st ++ [enviando total_elems (elem_actual st + 1) to] ++ evs
                            ++ [print [lit "[OK]"]; ESleep (delay opts)])
          | Raise e =>
              State (elem_actual st + 1) (envios_ok st) (envios_error st + 1)
                    (out st ++ [enviando total_elems (elem_actual st + 1) to] ++ evs
                            ++ [print_end [lit "[ERROR]"] (lit " "); print [exn_str e];
                                ESleep (delay opts)])
          end).
Proof.
  intros Hd Hs Hto Htry. unfold process_record. rewrite Hs, Hto, Htry.
  unfold finally_sleep, time_sleep.
  assert (Hneg : (delay opts <? 0)%Z = false) by (apply Z.ltb_ge; exact Hd).
  rewrite Hneg. destruct r; cbn [report elem_actual envios_ok envios_error out];
    rewrite <- !app_assoc; reflexivity.
Qed.

(** A column of the placeholder map that the row does not have: the
    substitution raises [IndexError]. *)
Lemma substitute_short (i : list str) (k : str) (v : nat) :
  In (k, v) placeholders -> length i <= v ->
  forall t u, substitute placeholders i t u = Raise IndexError.
Proof.
  intros Hin Hlen. induction placeholders as [|[k0 v0] P IH]; [destruct Hin|].
  intros t u. cbn [substitute]. unfold getitem at 1.
  destruct (nth_error i v0) eqn:E; cbn [bind]; [|reflexivity].
  destruct Hin as [H | H].
  - inversion H; subst. apply nth_error_None in Hlen. congruence.
  - apply IH, H.
Qed.

Lemma run_counts (elems_lista : list (list str)) :
  forall st st',
    run_ elems_lista st = Next st' ->
    envios_ok st' + envios_error st' = envios_ok st + envios_error st + length elems_lista.
Proof.
  induction elems_lista as [|i rest IH]; intros st st' H.
  - inversion H. simpl. lia.
  - cbn [run] in H. destruct (process_ st i) as [st1|e st1] eqn:E; [|discriminate].
    apply IH in H. rewrite H. cbn [length].
    unfold process_record in E.
    destruct (substitute placeholders i asunto cuerpo) as [[s b]|]; [|discriminate].
    destruct (getitem i 0); [|discriminate].
    destruct (try_block _ _ _ _ _ _ _) as [evs r].
    unfold finally_sleep in E. destruct (time_sleep (delay opts)); [|discriminate].
    inversion E. destruct r; cbn [report envios_ok envios_error]; lia.
Qed.

End LoopFacts.




(** C2 (what the code does instead).  The claim wants the row that lacks a
    mapped column to be one failed send and the run to go on.  In the code
    the substitution stands before the [try]: for every row that lacks a
    column of the placeholder map, the [IndexError] leaves the loop, no
    failure is counted, nothing is printed for the row, no delay elapses
    and the rows that follow are not sent. *)
Theorem short_row_stops_the_run
        (attach_files : World -> list str -> message -> result message)
        (W : World) (cfg : Config) (opts : Opts) (placeholders : list (str * nat))
        (asunto cuerpo : str) (total_elems : nat)
        (st : state) (i : list str) (rest : list (list str)) (k : str) (v : nat) :
  In (k, v) placeholders -> length i <= v ->
  run attach_files W cfg opts placeholders asunto cuerpo total_elems (i :: rest) st
  = Uncaught IndexError
             (State (elem_actual st + 1) (envios_ok st) (envios_error st) (out st)).
Proof.
  intros Hin Hlen. cbn [run]. unfold process_record.
  rewrite (substitute_short placeholders i k v Hin Hlen). reflexivity.
Qed.

Lemma short_row_stops_the_run_witness :
  let elems_lista := [[lit "u@x.com"; []; []; []];
                      Example.fila "v@x.com" "" "" "" "Bob"] in
  let W := Example.world (lit "smtp") Example.columnas elems_lista in
  run Mailer.attach_files W (Example.cfg (lit "smtp")) (Example.opts 0)
      (build_placeholders Example.columnas)
      (lit "Hello ||name||") (lit "Body ||name|| text") 2 elems_lista (State 0 0 0 [])
  = Uncaught IndexError (State 1 0 0 []) /\
  Mailer.main W (Example.opts 0)
  = (1, [EPrint (lit "Mailer v1.12" ++ ["010"%char]);
         EPrint (lit "Proceso iniciado el 01/01/2020, a las 00:00:00" ++ ["010"%char])]).
Proof.
  intros elems_lista W. split; [|reflexivity].
  assert (Hlen : length [lit "u@x.com"; @nil ascii; []; []] <= 4) by (simpl; lia).
  exact (short_row_stops_the_run Mailer.attach_files W (Example.cfg (lit "smtp"))
           (Example.opts 0) (build_placeholders Example.columnas)
           (lit "Hello ||name||") (lit "Body ||name|| text") 2 (State 0 0 0 [])
           [lit "u@x.com"; []; []; []] [Example.fila "v@x.com" "" "" "" "Bob"]
           (lit "||name||") 4 (or_introl eq_refl) Hlen).
Defined.

(* ================================================================== *)
(** * C5: the exit status *)
(* ================================================================== *)

Lemma startup_fatal (W : World) (opts : Opts) (out : list event) :
  falsy (lista opts) = true \/ falsy (texto opts) = true \/
  isfile W (opt_str (lista opts)) = false \/
  isfile W (opt_str (texto opts)) = false \/
  load_config W (config opts) = None ->
  exists evs, startup W opts out = inl (1, evs).
Proof.
  intros H. unfold startup.
  destruct (falsy (lista opts)); cbn [orb]; [eauto|].
  destruct (falsy (texto opts)); cbn [orb]; [eauto|].
  destruct (isfile W (opt_str (lista opts))); cbn [negb]; [|eauto].
  destruct (isfile W (opt_str (texto opts))); cbn [negb]; [|eauto].
  destruct (load_config W (config opts)); [|eauto].
  destruct H as [H | [H | [H | [H | H]]]]; discriminate.
Qed.




(* ================================================================== *)
(** * C8: the blocks of the SENDGRID branch *)
(* ================================================================== *)

Lemma n_bloques_lt (total k : nat) :
  k < n_bloques total <-> k * MailerSendgrid.bloque_envios < total.
Proof.
  unfold n_bloques.
  assert (HB : 0 < MailerSendgrid.bloque_envios) by (unfold MailerSendgrid.bloque_envios; lia).
  generalize dependent MailerSendgrid.bloque_envios. intros B HB.
  pose proof (Nat.div_mod_eq (total + (B - 1)) B) as Hdiv.
  assert (Hmod : (total + (B - 1)) mod B < B) by (apply Nat.mod_upper_bound; lia).
  set (q := (total + (B - 1)) / B) in *.
  set (r := (total + (B - 1)) mod B) in *.
  split; intros H; nia.
Qed.

Section Bloques.

Variable W : World.
Variable cfg : Config.
Variable placeholders : list (str * nat).
Variables asunto cuerpo : str.
Variable elems_lista : list (list str).
Variable mails : nat -> mail.

Local Abbreviation total := (length elems_lista).
Local Abbreviation loop_ := (MailerSendgrid.sendgrid_loop W cfg placeholders asunto cuerpo).

Hypothesis compiles :
  forall k, k < n_bloques total ->
    MailerSendgrid.compilar_bloque W cfg placeholders asunto cuerpo (bloque elems_lista k)
    = Ok (mails k).

Lemma bloque_slice (k : nat) :
  firstn (Nat.min (k * MailerSendgrid.bloque_envios + MailerSendgrid.bloque_envios) total
          - k * MailerSendgrid.bloque_envios)
         (skipn (k * MailerSendgrid.bloque_envios) elems_lista)
  = bloque elems_lista k.
Proof.
  unfold bloque.
  generalize MailerSendgrid.bloque_envios. intros B.
  destruct (Nat.le_gt_cases (k * B + B) total) as [H | H].
  - rewrite Nat.min_l by exact H. f_equal. lia.
  - rewrite Nat.min_r by lia.
    rewrite !firstn_all2; [reflexivity| |]; rewrite length_skipn; lia.
Qed.

(** From block [k] on, with [j] blocks to go. *)
Lemma sendgrid_loop_from (j : nat) :
  forall k fuel out,
    k + j = n_bloques total -> j <= fuel ->
    loop_ fuel elems_lista (k * MailerSendgrid.bloque_envios) out
    = Some (MailerSendgrid.Done
              (out ++ concat (map (fun k => eventos_bloque W total k (mails k)) (seq k j)))).
Proof.
  induction j as [|j IH]; intros k fuel out Hk Hfuel.
  - assert (Hge : (k * MailerSendgrid.bloque_envios <? total) = false).
    { apply Nat.ltb_ge. apply Nat.nlt_ge. intros H. apply n_bloques_lt in H. lia. }
    cbn [seq map concat]. rewrite app_nil_r.
    destruct fuel; cbn [MailerSendgrid.sendgrid_loop]; rewrite Hge; reflexivity.
  - assert (Hlt : (k * MailerSendgrid.bloque_envios <? total) = true).
    { apply Nat.ltb_lt. apply n_bloques_lt. lia. }
    destruct fuel as [|fuel]; [lia|].
    cbn [MailerSendgrid.sendgrid_loop]. rewrite Hlt.
    rewrite bloque_slice, compiles by lia.
    replace (k * MailerSendgrid.bloque_envios + MailerSendgrid.bloque_envios)
      with (S k * MailerSendgrid.bloque_envios) by (cbn [Nat.mul]; lia).
    rewrite IH by lia.
    cbn [seq map concat]. unfold eventos_bloque at 2.
    replace (S k * MailerSendgrid.bloque_envios)
      with (k * MailerSendgrid.bloque_envios + MailerSendgrid.bloque_envios)
      by (cbn [Nat.mul]; lia).
    rewrite <- !app_assoc. reflexivity.
Qed.

End Bloques.

Lemma eventos_bloque_no_sleep (W : World) (total k : nat) (m : mail) :
  forallb (fun e => negb (is_sleep e)) (eventos_bloque W total k m) = true.
Proof.
  unfold eventos_bloque, MailerSendgrid.enviar_bloque.
  destruct (sendgrid_send W _ m) as [[[status body] headers]|e]; reflexivity.
Qed.

Lemma eventos_bloque_sent (W : World) (total k : nat) (m : mail) :
  flat_map (fun e => match sent_mail e with Some x => [x] | None => [] end)
           (eventos_bloque W total k m) = [m].
Proof.
  unfold eventos_bloque, MailerSendgrid.enviar_bloque.
  destruct (sendgrid_send W _ m) as [[[status body] headers]|e]; reflexivity.
Qed.



(* ================================================================== *)
(** * Further properties: [split] *)
(* ================================================================== *)

Lemma split_go_skip (sep : str) (n : nat) (cur s : str) :
  split_go sep n cur s = split_go sep 0 cur (skipn n s).
Proof.
  revert s; induction n as [|n IH]; intros s.
  - reflexivity.
  - destruct s as [|c s]; [reflexivity|]. simpl. apply IH.
Qed.

Lemma split_go_match (sep cur s : str) :
  sep <> [] -> split_go sep 0 cur (sep ++ s) = cur :: split_go sep 0 [] s.
Proof.
  destruct sep as [|a sep]; [congruence|]. intros _.
  cbn [app split_go].
  change (a :: sep ++ s) with ((a :: sep) ++ s).
  rewrite startswith_app. f_equal.
  rewrite split_go_skip. cbn [length].
  replace (S (length sep) - 1) with (length sep) by lia.
  rewrite skipn_app, skipn_all, Nat.sub_diag. reflexivity.
Qed.

Lemma split_go_nomatch (sep cur s : str) (c : ascii) :
  startswith (c :: s) sep = false ->
  split_go sep 0 cur (c :: s) = split_go sep 0 (cur ++ [c]) s.
Proof. intros H. cbn [split_go]. rewrite H. reflexivity. Qed.

(** The shape of a split: one field when the separator does not occur, or
    the text before its leftmost occurrence and the split of what
    follows. *)
Lemma split_go_decomp (sep : str) :
  sep <> [] ->
  forall s cur,
    (contains s sep = false /\ split_go sep 0 cur s = [cur ++ s]) \/
    (exists a b, s = a ++ sep ++ b /\ contains a sep = false /\
                 split_go sep 0 cur s = (cur ++ a) :: split_go sep 0 [] b).
Proof.
  intros Hne. induction s as [|c s IH]; intros cur.
  - left. split; [destruct sep; [congruence | reflexivity]|].
    rewrite app_nil_r. reflexivity.
  - destruct (startswith (c :: s) sep) eqn:E.
    + right. apply startswith_spec in E. destruct E as [t E].
      exists [], t. rewrite E. split; [reflexivity|]. split.
      * destruct sep; [congruence | reflexivity].
      * rewrite app_nil_r. apply split_go_match; assumption.
    + rewrite (split_go_nomatch sep cur s c E).
      destruct (IH (cur ++ [c])) as [[Hc Hr] | (a & b & Hs & Ha & Hr)].
      * left. cbn [contains]. rewrite E, Hc. split; [reflexivity|].
        rewrite Hr, <- app_assoc. reflexivity.
      * right. exists (c :: a), b. rewrite Hr. split; [rewrite Hs; reflexivity|].
        split; [|rewrite <- app_assoc; reflexivity].
        cbn [contains]. rewrite Ha, orb_false_r.
        destruct (startswith (c :: a) sep) eqn:E'; [|reflexivity].
        apply startswith_spec in E'. destruct E' as [t E'].
        assert (startswith (c :: s) sep = true).
        { apply startswith_spec. exists (t ++ sep ++ b).
          rewrite Hs. change (c :: a ++ sep ++ b) with ((c :: a) ++ sep ++ b).
          rewrite E', <- app_assoc. reflexivity. }
        congruence.
Qed.

Lemma split_go_not_nil (sep : str) (s : str) :
  forall skip cur, split_go sep skip cur s <> [].
Proof.
  induction s as [|c s IH]; intros skip cur; cbn [split_go].
  - discriminate.
  - destruct skip; [|apply IH].
    destruct (startswith (c :: s) sep); [discriminate | apply IH].
Qed.

Lemma join_cons (sep x : str) (rest : list str) :
  rest <> [] -> join sep (x :: rest) = x ++ sep ++ join sep rest.
Proof. destruct rest; [congruence | reflexivity]. Qed.

Lemma split_go_fields (sep : str) :
  sep <> [] ->
  forall n s, length s <= n ->
    Forall (fun campo => contains campo sep = false) (split_go sep 0 [] s) /\
    join sep (split_go sep 0 [] s) = s.
Proof.
  intros Hne. induction n as [|n IH]; intros s Hlen.
  - destruct s; [|simpl in Hlen; lia]. split; [|reflexivity].
    constructor; [|constructor]. destruct sep; [congruence | reflexivity].
  - destruct (split_go_decomp sep Hne s []) as [[Hc Hr] | (a & b & Hs & Ha & Hr)].
    + rewrite Hr. split; [|reflexivity]. constructor; [exact Hc | constructor].
    + rewrite Hr. cbn [app].
      assert (Hb : length b <= n).
      { rewrite Hs, !length_app in Hlen. destruct sep; [congruence|].
        simpl in Hlen. lia. }
      destruct (IH b Hb) as [Hall Hjoin]. split.
      * constructor; assumption.
      * rewrite join_cons by apply split_go_not_nil.
        rewrite Hjoin. symmetry. exact Hs.
Qed.

(** [s.split(sep)] with a non-empty separator gives at least one field, no
    field holds the separator, and joining the fields gives [s] back. *)
Lemma split_join (s sep : str) :
  sep <> [] ->
  split s sep = Ok (split_go sep 0 [] s) /\
  split_go sep 0 [] s <> [] /\
  Forall (fun campo => contains campo sep = false) (split_go sep 0 [] s) /\
  join sep (split_go sep 0 [] s) = s.
Proof.
  intros Hne.
  destruct (split_go_fields sep Hne (length s) s (le_n _)) as [Hall Hjoin].
  split; [destruct sep; [congruence | reflexivity]|].
  split; [apply split_go_not_nil|]. split; assumption.
Qed.

Lemma join_app (sep : str) (l1 l2 : list str) :
  l1 <> [] -> l2 <> [] ->
  join sep (l1 ++ l2) = join sep l1 ++ sep ++ join sep l2.
Proof.
  intros H1 H2. induction l1 as [|x l1 IH]; [congruence|].
  destruct l1 as [|y l1].
  - cbn [app]. rewrite join_cons by assumption. reflexivity.
  - change ((x :: y :: l1) ++ l2) with (x :: ((y :: l1) ++ l2)).
    rewrite join_cons by discriminate.
    rewrite IH by discriminate.
    rewrite (join_cons sep x (y :: l1)) by discriminate.
    rewrite <- !app_assoc. reflexivity.
Qed.

(* ================================================================== *)
(** * Further properties: the composed message *)
(* ================================================================== *)

(** What a composition that ends was made of. *)
Lemma compose_inv (attach_files : World -> list str -> message -> result message)
      (W : World) (cfg : Config) (i : list str) (elem_asunto elem_cuerpo : str)
      (rcpt : list str) (composed : message) :
  compose attach_files W cfg i elem_asunto elem_cuerpo = Ok (rcpt, composed) ->
  exists to adjuntos cc bcc,
    nth_error i 0 = Some to /\ nth_error i 1 = Some adjuntos /\
    nth_error i 2 = Some cc /\ nth_error i 3 = Some bcc /\
    separador_subcampos cfg <> [] /\
    let fields := split_go (separador_subcampos cfg) 0 [] in
    rcpt = fields to ++ (if str_eqb cc [] then [] else fields cc)
                     ++ (if str_eqb bcc [] then [] else fields bcc) /\
    attach_files W (fields adjuntos)
      (Message
         ([Header (lit "Content-Type") (lit "multipart/mixed") [];
           Header (lit "MIME-Version") (lit "1.0") [];
           Header (lit "Subject") elem_asunto [];
           Header (lit "To") to []]
          ++ (if str_eqb cc [] then [] else [Header (lit "Cc") cc []])
          ++ (if str_eqb bcc [] then [] else [Header (lit "Bcc") bcc []])
          ++ [Header (lit "From") (from_email cfg) []])
         [Part (MIMEText (Some (lit "UTF-8"))) (lit "text") (lit "html") elem_cuerpo []])
    = Ok composed.
Proof.
  unfold compose, getitem, split. intros H.
  destruct (nth_error i 0) as [to|]; cbn [bind] in H; [|discriminate H].
  destruct (separador_subcampos cfg) as [|c sep] eqn:Esep; cbn [bind] in H;
    [discriminate H|].
  destruct (nth_error i 2) as [cc|]; cbn [bind] in H; [|discriminate H].
  destruct (str_eqb cc []) eqn:Ecc; cbn [negb bind] in H;
    (destruct (nth_error i 3) as [bcc|]; cbn [bind] in H; [|discriminate H]);
    (destruct (str_eqb bcc []) eqn:Ebcc; cbn [negb bind] in H);
    (destruct (nth_error i 1) as [adjuntos|]; cbn [bind] in H; [|discriminate H]);
    unfold set_header, attach, MIMEMultipart in H; cbn [m_headers m_parts app] in H;
    (destruct (attach_files W _ _) as [outer|e] eqn:Ha; cbn [bind] in H;
     [|discriminate H]);
    inversion H; subst; exists to, adjuntos, cc, bcc;
    rewrite Ecc, Ebcc; cbn [app];
    rewrite ?app_nil_r, <- ?app_assoc;
    repeat (split; [reflexivity || discriminate|]); exact Ha.
Qed.

(** X1.  When a message is composed, the envelope list is not empty, none
    of its addresses holds the sub-delimiter, and joined with the
    sub-delimiter it is the To field followed by the Cc field and by the
    Bcc field, each of these two when it is not empty: the envelope is the
    address fields of the row and nothing else. *)
Theorem envelope_is_the_address_fields
        (attach_files : World -> list str -> message -> result message)
        (W : World) (cfg : Config) (i : list str) (elem_asunto elem_cuerpo : str)
        (rcpt : list str) (composed : message) :
  let sep := separador_subcampos cfg in
  let to := nth 0 i [] in
  let cc := nth 2 i [] in
  let bcc := nth 3 i [] in
  compose attach_files W cfg i elem_asunto elem_cuerpo = Ok (rcpt, composed) ->
  rcpt <> [] /\
  Forall (fun addr => contains addr sep = false) rcpt /\
  join sep rcpt
  = to ++ (if str_eqb cc [] then [] else sep ++ cc)
       ++ (if str_eqb bcc [] then [] else sep ++ bcc).
Proof.
  intros sep to cc bcc H.
  apply compose_inv in H.
  destruct H as (to' & adj & cc' & bcc' & H0 & _ & H2 & H3 & Hsep & Hr & _).
  assert (to = to') by (unfold to; apply nth_error_nth; exact H0).
  assert (cc = cc') by (unfold cc; apply nth_error_nth; exact H2).
  assert (bcc = bcc') by (unfold bcc; apply nth_error_nth; exact H3).
  subst to' cc' bcc'. fold sep in Hr, Hsep.
  destruct (split_join to sep Hsep) as (_ & Nt & Ft & Jt).
  destruct (split_join cc sep Hsep) as (_ & Nc & Fc & Jc).
  destruct (split_join bcc sep Hsep) as (_ & Nb & Fb & Jb).
  rewrite Hr. split; [|split].
  - intros E. apply app_eq_nil in E. destruct E as [E _]. exact (Nt E).
  - destruct (str_eqb cc []), (str_eqb bcc []);
      repeat (apply Forall_app; split); auto.
  - destruct (str_eqb cc []), (str_eqb bcc []); cbn [app];
      rewrite ?app_nil_r.
    + exact Jt.
    + rewrite join_app, Jt, Jb by assumption. reflexivity.
    + rewrite join_app, Jt, Jc by assumption. reflexivity.
    + rewrite join_app by (try assumption; intros E; apply app_eq_nil in E;
                           destruct E as [E _]; exact (Nc E)).
      rewrite join_app, Jt, Jc, Jb by assumption.
      rewrite <- !app_assoc. reflexivity.
Qed.

Lemma envelope_is_the_address_fields_witness :
  let W := Example.world (lit "smtp") Example.columnas Example.tres in
  let i := Example.fila "a@x.com;b@x.com" "" "" "c@x.com" "Ana" in
  exists rcpt,
    rcpt = [lit "a@x.com"; lit "b@x.com"; lit "c@x.com"] /\
    join (lit ";") rcpt = lit "a@x.com;b@x.com;c@x.com".
Proof.
  intros W i.
  destruct (compose Mailer.attach_files W (Example.cfg (lit "smtp")) i
                    (lit "Hello Ana") (lit "Body Ana text")) as [[rcpt composed]|e] eqn:E.
  - exists rcpt.
    destruct (envelope_is_the_address_fields Mailer.attach_files W
                (Example.cfg (lit "smtp")) i (lit "Hello Ana") (lit "Body Ana text")
                rcpt composed E) as (_ & _ & Hj).
    vm_compute in E. inversion E. subst rcpt. split; [reflexivity | exact Hj].
  - vm_compute in E. discriminate E.
Defined.

(** The parts that [attach_files] adds, in [mailer.py]. *)
Lemma attachment_part_shape (W : World) (filename : str) (p : part) :
  Mailer.attachment_part W filename = Ok (Some p) ->
  exists disposicion rest,
    part_headers p
    = Header (lit "Content-Disposition") (Mailer.disposition_str disposicion)
             [(lit "filename",
               NtPath.basename (fst (Mailer.inline_marker filename)))] :: rest.
Proof.
  unfold Mailer.attachment_part.
  destruct (Mailer.inline_marker filename) as [path d]. cbn [fst].
  destruct (negb (isfile W path)); [discriminate|].
  destruct (typed_part W path) as [msg|e] eqn:E; cbn [bind]; [|discriminate].
  intros H. inversion H. exists d.
  unfold Mailer.attachment_headers.
  destruct d; cbn [add_header part_headers];
    rewrite (typed_part_headers W path msg E); cbn [app]; eexists; reflexivity.
Qed.

Lemma attach_files_parts (W : World) (filenames : list str) :
  forall outer composed,
    Mailer.attach_files W filenames outer = Ok composed ->
    exists ps,
      m_parts composed = m_parts outer ++ ps /\
      length ps <= length filenames /\
      Forall (fun p => exists disposicion name rest,
                  part_headers p
                  = Header (lit "Content-Disposition") disposicion
                           [(lit "filename", name)] :: rest /\
                  forallb (fun c => negb (NtPath.is_sep c)) name = true) ps.
Proof.
  induction filenames as [|f l IH]; intros outer composed H.
  - inversion H. exists []. rewrite app_nil_r. repeat split; auto.
  - cbn [Mailer.attach_files] in H.
    destruct (Mailer.attachment_part W f) as [[msg|]|e] eqn:E; cbn [bind] in H.
    + apply IH in H. destruct H as (ps & Hp & Hl & Hf).
      exists (msg :: ps). cbn [attach m_parts] in Hp.
      rewrite Hp, <- app_assoc. split; [reflexivity|].
      split; [simpl; lia|]. constructor; [|exact Hf].
      destruct (attachment_part_shape W f msg E) as (d & rest & Hh).
      exists (Mailer.disposition_str d),
             (NtPath.basename (fst (Mailer.inline_marker f))), rest.
      split; [exact Hh|].
      apply basename_terminal.
    + apply IH in H. destruct H as (ps & Hp & Hl & Hf).
      exists ps. split; [exact Hp|]. split; [simpl; lia | exact Hf].
    + discriminate.
Qed.



(* ================================================================== *)
(** * Further properties: the reading loops *)
(* ================================================================== *)

Lemma lstrip_head (s : str) (c : ascii) (rest : str) :
  MailerSendgrid.lstrip s = c :: rest -> MailerSendgrid.is_space c = false.
Proof.
  induction s as [|x s IH]; cbn [MailerSendgrid.lstrip]; [discriminate|].
  destruct (MailerSendgrid.is_space x) eqn:E; [exact IH|].
  intros H. inversion H; subst. exact E.
Qed.

Lemma lstrip_suffix (s : str) :
  exists spaces, s = spaces ++ MailerSendgrid.lstrip s.
Proof.
  induction s as [|x s [sp IH]]; [exists []; reflexivity|].
  cbn [MailerSendgrid.lstrip]. destruct (MailerSendgrid.is_space x).
  - exists (x :: sp). cbn [app]. f_equal. exact IH.
  - exists []. reflexivity.
Qed.

(** [s.strip()] neither begins nor ends with a white space. *)
Lemma strip_ends (s : str) (c : ascii) (rest : str) :
  (MailerSendgrid.strip s = c :: rest -> MailerSendgrid.is_space c = false) /\
  (MailerSendgrid.strip s = rest ++ [c] -> MailerSendgrid.is_space c = false).
Proof.
  unfold MailerSendgrid.strip.
  set (t := MailerSendgrid.lstrip s).
  set (u := MailerSendgrid.lstrip (rev t)).
  destruct (lstrip_suffix (rev t)) as [sp Hsp]. fold u in Hsp.
  assert (Ht : t = rev u ++ rev sp).
  { rewrite <- (rev_involutive t), Hsp, rev_app_distr. reflexivity. }
  split; intros H.
  - rewrite H in Ht. cbn [app] in Ht. exact (lstrip_head s c _ Ht).
  - assert (Hu : u = c :: rev rest).
    { rewrite <- (rev_involutive u), H, rev_app_distr. reflexivity. }
    exact (lstrip_head (rev t) c _ Hu).
Qed.

Lemma leer_texto_desde (lineas : list str) (asunto cuerpo : str) :
  fold_left Lectura.texto_step lineas (Some asunto, cuerpo)
  = (Some asunto, cuerpo ++ concat lineas).
Proof.
  revert cuerpo; induction lineas as [|l ls IH]; intros cuerpo.
  - simpl. rewrite app_nil_r. reflexivity.
  - cbn [fold_left Lectura.texto_step concat]. rewrite IH, app_assoc. reflexivity.
Qed.

(** X3.  The template: with no line there is no subject ([None]) and the
    body is empty; otherwise the subject is the first line without the
    white space at its two ends, so that it neither begins nor ends with a
    white space or a line break, and the body is the other lines one
    after the other, as they are. *)
Theorem template_is_first_line_and_rest (linea : str) (rest : list str) :
  Lectura.leer_texto [] = (None, []) /\
  Lectura.leer_texto (linea :: rest)
  = (Some (MailerSendgrid.strip linea), concat rest) /\
  (forall c s, MailerSendgrid.strip linea = c :: s -> MailerSendgrid.is_space c = false) /\
  (forall c s, MailerSendgrid.strip linea = s ++ [c] -> MailerSendgrid.is_space c = false).
Proof.
  split; [reflexivity|]. split.
  - unfold Lectura.leer_texto. cbn [fold_left Lectura.texto_step].
    rewrite leer_texto_desde. reflexivity.
  - split; intros c s; apply strip_ends.
Qed.

Lemma leer_lista_filas (sep : str) (lineas : list str) (st : Lectura.lista) :
  sep <> [] -> Lectura.columnas st <> [] ->
  Lectura.leer_lista_desde sep lineas st
  = Ok (Lectura.Lista (Lectura.columnas st) (Lectura.placeholders st)
          (Lectura.elems_lista st
             ++ map (fun l => split_go sep 0 [] (Lectura.rstrip l)) lineas)).
Proof.
  intros Hsep. revert st; induction lineas as [|l ls IH]; intros st Hc.
  - cbn [Lectura.leer_lista_desde map]. rewrite app_nil_r. destruct st; reflexivity.
  - cbn [Lectura.leer_lista_desde map]. unfold Lectura.lista_step.
    destruct (Lectura.columnas st) as [|c0 cols] eqn:E; [congruence|].
    cbn [length Nat.eqb].
    destruct (split_join (Lectura.rstrip l) sep Hsep) as (Hs & _). rewrite Hs.
    cbn [bind]. rewrite IH by (cbn; discriminate).
    cbn [Lectura.columnas Lectura.placeholders Lectura.elems_lista].
    rewrite <- app_assoc. reflexivity.
Qed.

(** X4.  The list: with a non-empty column separator, the header row is
    the first line, even a blank one, and every other line is a row; the
    placeholder map is that of the header row; each line is split after
    the white space at its end is taken off; and every row has at least
    one field, so that [i[0]] never fails on a row that was read.  With an
    empty separator the first line raises [ValueError]. *)
Theorem list_is_header_and_rows (sep linea : str) (rest : list str) :
  let campos l := split_go sep 0 [] (Lectura.rstrip l) in
  (sep <> [] ->
   Lectura.leer_lista sep (linea :: rest)
   = Ok (Lectura.Lista (campos linea) (build_placeholders (campos linea))
                       (map campos rest)) /\
   Forall (fun i => exists to, getitem i 0 = Ok to) (map campos rest)) /\
  (sep = [] ->
   Lectura.leer_lista sep (linea :: rest) = Raise (ValueError (lit "empty separator"))).
Proof.
  intros campos. split.
  - intros Hsep. split.
    + unfold Lectura.leer_lista. cbn [Lectura.leer_lista_desde].
      unfold Lectura.lista_step at 1. cbn [Lectura.columnas length Nat.eqb].
      destruct (split_join (Lectura.rstrip linea) sep Hsep) as (Hs & Hn & _).
      rewrite Hs. cbn [bind].
      rewrite leer_lista_filas by (try assumption; cbn; exact Hn).
      reflexivity.
    + apply Forall_forall. intros i Hi. apply in_map_iff in Hi.
      destruct Hi as (l & <- & _). unfold campos.
      pose proof (split_go_not_nil sep (Lectura.rstrip l) 0 []) as Hn.
      destruct (split_go sep 0 [] (Lectura.rstrip l)) as [|to r]; [congruence|].
      exists to. reflexivity.
  - intros ->. reflexivity.
Qed.

Lemma list_is_header_and_rows_witness :
  Lectura.leer_lista (lit ",")
    [lit "to,attach,cc,bcc,||name||" ++ ["010"%char];
     lit "u@x.com,,,,Ana" ++ ["010"%char];
     ["010"%char]]
  = Ok (Lectura.Lista Example.columnas [(lit "||name||", 4)]
          [Example.fila "u@x.com" "" "" "" "Ana"; [[]]]).
Proof.
  assert (Hsep : lit "," <> []) by discriminate.
  exact (proj1 (proj1 (list_is_header_and_rows (lit ",")
                         (lit "to,attach,cc,bcc,||name||" ++ ["010"%char])
                         [lit "u@x.com,,,,Ana" ++ ["010"%char]; ["010"%char]])
                      Hsep)).
Defined.

(* ================================================================== *)
(** * Further properties: the placeholder map *)
(* ================================================================== *)

Lemma existsb_str_eqb (k : str) (l : list str) :
  existsb (str_eqb k) l = true <-> In k l.
Proof.
  rewrite existsb_exists. split.
  - intros (x & Hx & E). apply str_eqb_eq in E. subst. exact Hx.
  - intros H. exists k. split; [exact H | apply str_eqb_refl].
Qed.

Lemma dict_set_in (d : list (str * nat)) (x : str) (n : nat) (k : str) (v : nat) :
  NoDup (map fst d) ->
  In (k, v) (dict_set d x n) <-> (k = x /\ v = n) \/ (k <> x /\ In (k, v) d).
Proof.
  induction d as [|[k0 v0] d IH]; intros Hnd.
  - simpl. split.
    + intros [H | []]. inversion H. auto.
    + intros [[-> ->] | [_ []]]. auto.
  - inversion Hnd as [|? ? Hnotin Hnd']; subst.
    cbn [dict_set]. destruct (str_eqb k0 x) eqn:E.
    + apply str_eqb_eq in E. subst k0. cbn [In]. split.
      * intros [H | H].
        -- inversion H. auto.
        -- right. split; [|auto]. intros ->. apply Hnotin.
           apply in_map_iff. exists (x, v). auto.
      * intros [[-> ->] | [Hk [H | H]]]; auto.
        inversion H. congruence.
    + apply str_eqb_neq in E. cbn [In]. rewrite (IH Hnd'). split.
      * intros [H | [H | [Hk H]]]; auto.
        inversion H; subst. right. split; [congruence | auto].
      * intros [[-> ->] | [Hk [H | H]]]; auto.
Qed.

Lemma dict_set_nodup (d : list (str * nat)) (x : str) (n : nat) :
  NoDup (map fst d) -> NoDup (map fst (dict_set d x n)).
Proof.
  intros H. rewrite dict_set_keys_eq.
  destruct (existsb (str_eqb x) (map fst d)) eqn:E; [exact H|].
  apply NoDup_app; [exact H | repeat constructor; intros [] |].
  intros k Hk [<- | []].
  apply existsb_str_eqb in Hk. congruence.
Qed.

Lemma last_columns_step (pre : list str) (d : list (str * nat)) (x : str) :
  last_columns pre d ->
  last_columns (pre ++ [x]) (placeholders_step d (length pre, x)).
Proof.
  intros [Hnd Hd]. cbn [placeholders_step].
  assert (Hx : nth_error (pre ++ [x]) (length pre) = Some x).
  { rewrite nth_error_app2, Nat.sub_diag by lia. reflexivity. }
  assert (Hlt : forall v k, nth_error pre v = Some k ->
                            v < length pre /\ nth_error (pre ++ [x]) v = Some k).
  { intros v k H. assert (v < length pre) by (apply nth_error_Some; congruence).
    split; [assumption|]. rewrite nth_error_app1 by assumption. exact H. }
  assert (Hcases : forall v k, nth_error (pre ++ [x]) v = Some k ->
                     (v < length pre /\ nth_error pre v = Some k) \/
                     (v = length pre /\ k = x)).
  { intros v k H. destruct (Nat.lt_ge_cases v (length pre)) as [Hv | Hv].
    - left. split; [assumption|]. rewrite nth_error_app1 in H by assumption. exact H.
    - right. rewrite nth_error_app2 in H by assumption.
      destruct (v - length pre) as [|m] eqn:Em.
      + inversion H. split; [lia | reflexivity].
      + destruct m; discriminate H. }
  assert (Hold : forall k v, (forall j, v < j -> nth_error (pre ++ [x]) j <> Some k) ->
                             forall j, v < j -> nth_error pre j <> Some k).
  { intros k v H j Hj E. destruct (Hlt j k E) as [_ E']. exact (H j Hj E'). }
  destruct (is_placeholder x) eqn:Ex.
  - split; [apply dict_set_nodup; exact Hnd|].
    intros k v. rewrite (dict_set_in d x (length pre) k v Hnd), Hd. split.
    + intros [[-> ->] | (Hk & Hp & Hn & Hlast)].
      * split; [exact Ex|]. split; [exact Hx|].
        intros j Hj E. destruct (Hcases j x E) as [[H _] | [H _]]; lia.
      * destruct (Hlt v k Hn) as [Hv Hn']. split; [exact Hp|]. split; [exact Hn'|].
        intros j Hj E. destruct (Hcases j k E) as [[_ H] | [_ H]].
        -- exact (Hlast j Hj H).
        -- congruence.
    + intros (Hp & Hn & Hlast). destruct (Hcases v k Hn) as [[Hv Hn'] | [-> ->]].
      * right. split.
        -- intros ->. exact (Hlast (length pre) Hv Hx).
        -- split; [exact Hp|]. split; [exact Hn'|]. exact (Hold k v Hlast).
      * left. auto.
  - split; [exact Hnd|]. intros k v. rewrite Hd. split.
    + intros (Hp & Hn & Hlast). destruct (Hlt v k Hn) as [Hv Hn'].
      split; [exact Hp|]. split; [exact Hn'|].
      intros j Hj E. destruct (Hcases j k E) as [[_ H] | [_ H]].
      * exact (Hlast j Hj H).
      * congruence.
    + intros (Hp & Hn & Hlast). destruct (Hcases v k Hn) as [[Hv Hn'] | [-> ->]].
      * split; [exact Hp|]. split; [exact Hn'|]. exact (Hold k v Hlast).
      * congruence.
Qed.

Lemma last_columns_fold (l : list str) :
  forall pre d,
    last_columns pre d ->
    last_columns (pre ++ l)
                 (fold_left placeholders_step (enumerate_from (length pre) l) d).
Proof.
  induction l as [|x l IH]; intros pre d H.
  - rewrite app_nil_r. exact H.
  - cbn [enumerate_from fold_left].
    replace (pre ++ x :: l) with ((pre ++ [x]) ++ l) by (rewrite <- app_assoc; reflexivity).
    replace (S (length pre)) with (length (pre ++ [x])) by (rewrite length_app; simpl; lia).
    apply IH, last_columns_step, H.
Qed.

Lemma placeholders_last_columns (columnas : list str) :
  last_columns columnas (build_placeholders columnas).
Proof.
  assert (H0 : last_columns [] []).
  { split; [constructor|]. intros k v. split; [intros []|].
    intros (_ & H & _). destruct v; discriminate H. }
  exact (last_columns_fold columnas [] [] H0).
Qed.

Lemma placeholders_in_range (columnas : list str) (k : str) (v : nat) :
  In (k, v) (build_placeholders columnas) -> v < length columnas.
Proof.
  intros Hin. destruct (placeholders_last_columns columnas) as [_ H].
  apply H in Hin. destruct Hin as (_ & Hn & _).
  apply nth_error_Some. congruence.
Qed.

(** X5.  The placeholder map of a header row has each token once, and
    holds exactly the pairs of a column value that begins and ends with
    ["||"] and the last column where that value stands; every mapped
    column is a column of the header row. *)
Theorem placeholders_are_last_columns (columnas : list str) :
  NoDup (map fst (build_placeholders columnas)) /\
  (forall k v,
      In (k, v) (build_placeholders columnas) <->
      is_placeholder k = true /\ nth_error columnas v = Some k /\
      forall j, v < j -> nth_error columnas j <> Some k) /\
  (forall k v, In (k, v) (build_placeholders columnas) -> v < length columnas).
Proof.
  destruct (placeholders_last_columns columnas) as [Hnd H].
  split; [exact Hnd|]. split; [exact H|].
  apply placeholders_in_range.
Qed.

(** X6.  A row that has as many fields as the header row has columns is
    merged without an [IndexError], whatever the header row, the template
    and the fields are. *)
Theorem full_row_is_merged (columnas i : list str) (asunto cuerpo : str) :
  length columnas <= length i ->
  substitute (build_placeholders columnas) i asunto cuerpo
  = Ok (merged (build_placeholders columnas) i asunto,
        merged (build_placeholders columnas) i cuerpo).
Proof.
  intros Hlen. apply substitute_merged. intros k v Hin.
  apply placeholders_in_range in Hin. lia.
Qed.

Lemma full_row_is_merged_witness :
  substitute (build_placeholders Example.columnas)
             (Example.fila "u@x.com" "" "" "" "Ana")
             (lit "Hello ||name||") (lit "Body ||name|| text")
  = Ok (lit "Hello Ana", lit "Body Ana text").
Proof.
  assert (Hlen : length Example.columnas
                 <= length (Example.fila "u@x.com" "" "" "" "Ana")) by (simpl; lia).
  exact (full_row_is_merged Example.columnas (Example.fila "u@x.com" "" "" "" "Ana")
           (lit "Hello ||name||") (lit "Body ||name|| text") Hlen).
Defined.

(** X7.  A subject and a body in which no token of the placeholder map
    occurs come out of the substitution as they are, for every row that
    has the mapped columns. *)
Theorem template_without_tokens_is_unchanged
        (placeholders : list (str * nat)) (i : list str) (asunto cuerpo : str) :
  (forall k v, In (k, v) placeholders -> v < length i) ->
  (forall k v, In (k, v) placeholders ->
               contains asunto k = false /\ contains cuerpo k = false) ->
  substitute placeholders i asunto cuerpo = Ok (asunto, cuerpo).
Proof.
  induction placeholders as [|[k v] P IH]; intros Hlen Habs; [reflexivity|].
  cbn [substitute].
  rewrite (getitem_nth i v []) by (apply (Hlen k); left; reflexivity).
  cbn [bind].
  destruct (Habs k v (or_introl eq_refl)) as [Ha Hc].
  assert (Hk : k <> []) by (intros ->; destruct asunto; discriminate Ha).
  rewrite !replace_absent by assumption.
  apply IH.
  - intros k' v' Hin. apply (Hlen k'). right. exact Hin.
  - intros k' v' Hin. apply (Habs k' v'). right. exact Hin.
Qed.

Lemma template_without_tokens_is_unchanged_witness :
  substitute (build_placeholders Example.columnas)
             (Example.fila "u@x.com" "" "" "" "Ana")
             (lit "Hello |name|") (lit "Body text")
  = Ok (lit "Hello |name|", lit "Body text").
Proof.
  apply template_without_tokens_is_unchanged.
  - intros k v [H | []]. inversion H. simpl. lia.
  - intros k v [H | []]. inversion H. split; reflexivity.
Defined.

(* ================================================================== *)
(** * Further properties: the sending loop *)
(* ================================================================== *)

Lemma count_app (f : event -> bool) (a b : list event) :
  count f (a ++ b) = count f a + count f b.
Proof. unfold count. rewrite filter_app, length_app. reflexivity. Qed.

(** What the [try] block hands to the transport: nothing or one message,
    and one message when it ends without an exception. *)
Lemma try_block_events
      (attach_files : World -> list str -> message -> result message)
      (W : World) (cfg : Config) (n : nat) (i : list str)
      (elem_asunto elem_cuerpo : str) (evs : list event) (r : result unit) :
  try_block attach_files W cfg n i elem_asunto elem_cuerpo = (evs, r) ->
  count is_sleep evs = 0 /\
  count is_sendmail evs <= 1 /\
  (forall u, r = Ok u -> count is_sendmail evs = 1).
Proof.
  unfold try_block, session.
  destruct (compose attach_files W cfg i elem_asunto elem_cuerpo) as [[rcpt m]|e].
  - destruct (bind _ _) as [u|e].
    + intros H. inversion H. cbn. auto.
    + intros H. inversion H. cbn. repeat split; auto. intros u Hu. discriminate Hu.
  - intros H. inversion H. cbn. repeat split; auto. intros u Hu. discriminate Hu.
Qed.

Section LoopTotal.

Variable attach_files : World -> list str -> message -> result message.
Variable W : World.
Variable cfg : Config.
Variable opts : Opts.
Variable placeholders : list (str * nat).
Variables asunto cuerpo : str.
Variable total_elems : nat.

Hypothesis delay_ok : (0 <= delay opts)%Z.

Local Abbreviation run_ := (run attach_files W cfg opts placeholders asunto cuerpo total_elems).
Local Abbreviation process_ :=
  (process_record attach_files W cfg opts placeholders asunto cuerpo total_elems).

(** One row that has a first field and every mapped column. *)
Lemma process_record_total (st : state) (i : list str) :
  i <> [] ->
  (forall k v, In (k, v) placeholders -> v < length i) ->
  exists st',
    process_ st i = Next st' /\
    elem_actual st' = elem_actual st + 1 /\
    envios_ok st' + envios_error st' = envios_ok st + envios_error st + 1 /\
    count is_sleep (out st') = count is_sleep (out st) + 1 /\
    count is_sendmail (out st') <= count is_sendmail (out st) + 1 /\
    envios_ok st' + count is_sendmail (out st)
    <= envios_ok st + count is_sendmail (out st').
Proof.
  intros Hne Hcols.
  destruct i as [|to rest]; [congruence|].
  destruct (try_block attach_files W cfg (elem_actual st + 1) (to :: rest)
                      (merged placeholders (to :: rest) asunto)
                      (merged placeholders (to :: rest) cuerpo)) as [evs r] eqn:Et.
  pose proof (process_record_next attach_files W cfg opts placeholders asunto cuerpo
                total_elems st (to :: rest) _ _ to evs r delay_ok
                (substitute_merged placeholders (to :: rest) asunto cuerpo Hcols)
                eq_refl Et) as Hp.
  destruct (try_block_events attach_files W cfg _ _ _ _ evs r Et) as (Hs & Hm & Hok).
  eexists. split; [exact Hp|].
  destruct r as [u|e]; cbn [elem_actual envios_ok envios_error out];
    rewrite !count_app; cbn [count filter is_sleep is_sendmail length app print print_end enviando];
    unfold count in *; cbn [filter is_sleep is_sendmail length].
  - pose proof (Hok u eq_refl). repeat split; lia.
  - repeat split; lia.
Qed.

Lemma run_total (elems : list (list str)) :
  forall st,
    Forall (fun i => i <> [] /\ forall k v, In (k, v) placeholders -> v < length i) elems ->
    exists st',
      run_ elems st = Next st' /\
      elem_actual st' = elem_actual st + length elems /\
      envios_ok st' + envios_error st' = envios_ok st + envios_error st + length elems /\
      count is_sleep (out st') = count is_sleep (out st) + length elems /\
      count is_sendmail (out st') <= count is_sendmail (out st) + length elems /\
      envios_ok st' + count is_sendmail (out st)
      <= envios_ok st + count is_sendmail (out st').
Proof.
  induction elems as [|i rest IH]; intros st Hall.
  - exists st. cbn [run length]. repeat split; lia.
  - inversion Hall as [|? ? [Hne Hcols] Hrest]; subst.
    destruct (process_record_total st i Hne Hcols) as (st1 & Hp & H1 & H2 & H3 & H4 & H5).
    destruct (IH st1 Hrest) as (st' & Hr & G1 & G2 & G3 & G4 & G5).
    exists st'. cbn [run length]. rewrite Hp. split; [exact Hr|].
    repeat split; lia.
Qed.

End LoopTotal.



(** A start that fails ends with status 1 and adds console lines only,
    the same ones whatever was printed before. *)
Lemma startup_inl (W : World) (opts : Opts) (out : list event) (c : nat) (evs : list event) :
  startup W opts out = inl (c, evs) ->
  c = 1 /\
  exists extra,
    forallb is_print extra = true /\
    forall out', startup W opts out' = inl (1, out' ++ extra).
Proof.
  unfold startup.
  destruct (falsy (lista opts) || falsy (texto opts)).
  { intros H. inversion H. split; [reflexivity|]. eexists. split; [|reflexivity]. reflexivity. }
  destruct (negb (isfile W (opt_str (lista opts)))).
  { intros H. inversion H. split; [reflexivity|]. eexists. split; [|reflexivity]. reflexivity. }
  destruct (negb (isfile W (opt_str (texto opts)))).
  { intros H. inversion H. split; [reflexivity|]. eexists. split; [|reflexivity]. reflexivity. }
  destruct (load_config W (config opts)) as [cfg|].
  2:{ intros H. inversion H. split; [reflexivity|]. eexists. split; [|reflexivity]. reflexivity. }
  destruct (read_texto W _) as [[subj body]|e].
  2:{ intros H. inversion H. split; [reflexivity|]. exists [].
      split; [reflexivity|]. intros out'. rewrite app_nil_r. reflexivity. }
  destruct (read_lista W _ _) as [[cols elems]|e].
  - discriminate.
  - intros H. inversion H. split; [reflexivity|]. exists [].
    split; [reflexivity|]. intros out'. rewrite app_nil_r. reflexivity.
Qed.



(** X10.  When the start fails, in either script, the status is 1 and
    nothing is sent: no message, no API call and no sleep, only console
    lines. *)
Theorem failed_start_sends_nothing (W : World) (opts : Opts) (c : nat) (evs : list event) :
  startup W opts [] = inl (c, evs) ->
  fst (Mailer.main W opts) = 1 /\
  forallb is_print (snd (Mailer.main W opts)) = true /\
  forall fuel,
    exists out, MailerSendgrid.main fuel W opts = Some (1, out) /\
                forallb is_print out = true.
Proof.
  intros H. apply startup_inl in H. destruct H as (_ & extra & Hp & Hs).
  split; [|split].
  - unfold Mailer.main. rewrite Hs. reflexivity.
  - unfold Mailer.main. rewrite Hs. cbn [snd]. rewrite forallb_app, Hp. reflexivity.
  - intros fuel. exists extra. unfold MailerSendgrid.main. rewrite Hs.
    split; [reflexivity | exact Hp].
Qed.

Lemma failed_start_sends_nothing_witness :
  let W := Example.world (lit "smtp") Example.columnas Example.tres in
  let opts := {| lista := Some (lit "no.csv"); texto := Some (lit "texto.txt");
                 delay := 0; config := lit "config.json" |} in
  Mailer.main W opts
  = (1, [EPrint (lit "Mailer v1.12" ++ ["010"%char]);
         EPrint (lit "Error: No se encuentra el archivo no.csv" ++ ["010"%char])]).
Proof.
  intros W opts.
  destruct (failed_start_sends_nothing W opts 1
              [print [lit "Error: No se encuentra el archivo no.csv"]] eq_refl)
    as (H1 & _ & _).
  destruct (Mailer.main W opts) as [c out] eqn:E. cbn [fst] in H1. subst c.
  vm_compute in E. inversion E. reflexivity.
Defined.

Lemma lstrip_spaces (s : str) :
  forallb MailerSendgrid.is_space s = true -> MailerSendgrid.lstrip s = [].
Proof.
  induction s as [|c s IH]; [reflexivity|].
  cbn [forallb MailerSendgrid.lstrip]. intros H. apply andb_true_iff in H.
  destruct H as [-> H]. exact (IH H).
Qed.

Lemma rstrip_spaces (s : str) :
  forallb MailerSendgrid.is_space s = true -> Lectura.rstrip s = [].
Proof.
  intros H. unfold Lectura.rstrip. rewrite lstrip_spaces; [reflexivity|].
  apply forallb_forall. intros c Hc. apply in_rev in Hc.
  rewrite forallb_forall in H. apply H, Hc.
Qed.



Lemma attach_files_raises (W : World) (filenames : list str) (filename : str) (e : exn) :
  In filename filenames ->
  Mailer.attachment_part W filename = Raise e ->
  forall outer, exists e', Mailer.attach_files W filenames outer = Raise e'.
Proof.
  intros Hin He. induction filenames as [|f l IH]; [destruct Hin|].
  intros outer. cbn [Mailer.attach_files].
  destruct (Mailer.attachment_part W f) as [[msg|]|e0] eqn:E; cbn [bind].
  - destruct Hin as [-> | Hin]; [congruence | apply IH, Hin].
  - destruct Hin as [-> | Hin]; [congruence | apply IH, Hin].
  - eauto.
Qed.

(** X12.  In [mailer.py], a specifier whose file exists but cannot be
    read fails the whole row: the [try] block raises and nothing is handed
    to the transport, whatever the other specifiers of the row are. *)
Theorem unreadable_attachment_fails_the_row
        (W : World) (cfg : Config) (n : nat) (i : list str) (adjuntos filename : str)
        (elem_asunto elem_cuerpo : str) (e : exn) :
  let path := fst (Mailer.inline_marker filename) in
  nth_error i 1 = Some adjuntos ->
  In filename (split_go (separador_subcampos cfg) 0 [] adjuntos) ->
  isfile W path = true ->
  typed_part W path = Raise e ->
  exists e',
    try_block Mailer.attach_files W cfg n i elem_asunto elem_cuerpo = ([], Raise e').
Proof.
  intros path H1 Hin Hfile Htyped.
  assert (Hpart : Mailer.attachment_part W filename = Raise e).
  { unfold Mailer.attachment_part. subst path.
    destruct (Mailer.inline_marker filename) as [p d]. cbn [fst] in *.
    rewrite Hfile, Htyped. reflexivity. }
  unfold try_block.
  destruct (compose Mailer.attach_files W cfg i elem_asunto elem_cuerpo)
    as [[rcpt composed]|e'] eqn:Ec; [|eauto].
  apply compose_inv in Ec.
  destruct Ec as (to & adj & cc & bcc & _ & H1' & _ & _ & _ & _ & Ha).
  rewrite H1 in H1'. inversion H1'. subst adj. cbv zeta in Ha.
  destruct (attach_files_raises W _ filename e Hin Hpart
              (Message
                 ([Header (lit "Content-Type") (lit "multipart/mixed") [];
                   Header (lit "MIME-Version") (lit "1.0") [];
                   Header (lit "Subject") elem_asunto [];
                   Header (lit "To") to []]
                  ++ (if str_eqb cc [] then [] else [Header (lit "Cc") cc []])
                  ++ (if str_eqb bcc [] then [] else [Header (lit "Bcc") bcc []])
                  ++ [Header (lit "From") (from_email cfg) []])
                 [Part (MIMEText (Some (lit "UTF-8"))) (lit "text") (lit "html")
                       elem_cuerpo []])) as [e' He'].
  rewrite He' in Ha. discriminate Ha.
Qed.

Lemma unreadable_attachment_fails_the_row_witness :
  exists e,
    try_block Mailer.attach_files Example.world_locked (Example.cfg (lit "smtp")) 1
              (Example.fila "u@x.com" "a.txt;locked.txt" "" "" "Ana")
              (lit "Hello Ana") (lit "Body Ana text") = ([], Raise e).
Proof.
  apply (unreadable_attachment_fails_the_row Example.world_locked
           (Example.cfg (lit "smtp")) 1
           (Example.fila "u@x.com" "a.txt;locked.txt" "" "" "Ana")
           (lit "a.txt;locked.txt") (lit "locked.txt")
           (lit "Hello Ana") (lit "Body Ana text")
           (EnvError (lit "PermissionError") (lit "[Errno 13] Permission denied"))).
  - reflexivity.
  - right. left. reflexivity.
  - reflexivity.
  - reflexivity.
Defined.

(* ================================================================== *)
(** * Further properties: the SENDGRID branch *)
(* ================================================================== *)

Lemma startup_inr (W : World) (opts : Opts) (out : list event) (l : loaded) (evs : list event) :
  startup W opts out = inr (l, evs) -> evs = out.
Proof.
  unfold startup.
  destruct (falsy (lista opts) || falsy (texto opts)); [discriminate|].
  destruct (negb (isfile W (opt_str (lista opts)))); [discriminate|].
  destruct (negb (isfile W (opt_str (texto opts)))); [discriminate|].
  destruct (load_config W (config opts)); [|discriminate].
  destruct (read_texto W _) as [[subj body]|]; [|discriminate].
  destruct (read_lista W _ _) as [[cols elems]|]; [|discriminate].
  intros H. inversion H. reflexivity.
Qed.



Section BloqueFalla.

Variable W : World.
Variable cfg : Config.
Variable placeholders : list (str * nat).
Variables asunto cuerpo : str.
Variable elems_lista : list (list str).
Variable mails : nat -> mail.
Variable falla : nat.
Variable e : exn.

Local Abbreviation total := (length elems_lista).
Local Abbreviation loop_ := (MailerSendgrid.sendgrid_loop W cfg placeholders asunto cuerpo).

Hypothesis compiles_before :
  forall k, k < falla ->
    MailerSendgrid.compilar_bloque W cfg placeholders asunto cuerpo (bloque elems_lista k)
    = Ok (mails k).
Hypothesis raises :
  MailerSendgrid.compilar_bloque W cfg placeholders asunto cuerpo (bloque elems_lista falla)
  = Raise e.
Hypothesis falla_is_a_block : falla < n_bloques total.

(** From block [k] on, with [j] blocks before the one that raises. *)
Lemma sendgrid_loop_fails_from (j : nat) :
  forall k fuel out,
    k + j = falla -> j < fuel ->
    loop_ fuel elems_lista (k * MailerSendgrid.bloque_envios) out
    = Some (MailerSendgrid.Failed e
              (out ++ concat (map (fun k => eventos_bloque W total k (mails k)) (seq k j))
                   ++ [anuncio_bloque total falla])).
Proof.
  induction j as [|j IH]; intros k fuel out Hk Hfuel.
  - rewrite Nat.add_0_r in Hk. subst k.
    assert (Hlt : (falla * MailerSendgrid.bloque_envios <? total) = true).
    { apply Nat.ltb_lt. apply n_bloques_lt. exact falla_is_a_block. }
    destruct fuel as [|fuel]; [lia|].
    cbn [MailerSendgrid.sendgrid_loop]. rewrite Hlt.
    rewrite bloque_slice, raises. reflexivity.
  - assert (Hlt : (k * MailerSendgrid.bloque_envios <? total) = true).
    { apply Nat.ltb_lt. apply n_bloques_lt. lia. }
    destruct fuel as [|fuel]; [lia|].
    cbn [MailerSendgrid.sendgrid_loop]. rewrite Hlt.
    rewrite bloque_slice, compiles_before by lia.
    replace (k * MailerSendgrid.bloque_envios + MailerSendgrid.bloque_envios)
      with (S k * MailerSendgrid.bloque_envios) by (cbn [Nat.mul]; lia).
    rewrite IH by lia.
    cbn [seq map concat]. unfold eventos_bloque at 2.
    replace (S k * MailerSendgrid.bloque_envios)
      with (k * MailerSendgrid.bloque_envios + MailerSendgrid.bloque_envios)
      by (cbn [Nat.mul]; lia).
    rewrite <- !app_assoc. reflexivity.
Qed.

End BloqueFalla.

(** The loop of the SENDGRID branch ends within one turn for each block. *)
Lemma sendgrid_loop_some (W : World) (cfg : Config) (placeholders : list (str * nat))
      (asunto cuerpo : str) (elems_lista : list (list str)) (j : nat) :
  forall k fuel out,
    k + j = n_bloques (length elems_lista) -> j <= fuel ->
    exists r,
      MailerSendgrid.sendgrid_loop W cfg placeholders asunto cuerpo fuel elems_lista
        (k * MailerSendgrid.bloque_envios) out = Some r.
Proof.
  induction j as [|j IH]; intros k fuel out Hk Hfuel.
  - assert (Hge : (k * MailerSendgrid.bloque_envios <? length elems_lista) = false).
    { apply Nat.ltb_ge. apply Nat.nlt_ge. intros H. apply n_bloques_lt in H. lia. }
    destruct fuel; cbn [MailerSendgrid.sendgrid_loop]; rewrite Hge; eauto.
  - assert (Hlt : (k * MailerSendgrid.bloque_envios <? length elems_lista) = true).
    { apply Nat.ltb_lt. apply n_bloques_lt. lia. }
    destruct fuel as [|fuel]; [lia|].
    cbn [MailerSendgrid.sendgrid_loop]. rewrite Hlt.
    destruct (MailerSendgrid.compilar_bloque _ _ _ _ _ _) as [m|e]; [|eauto].
    replace (k * MailerSendgrid.bloque_envios + MailerSendgrid.bloque_envios)
      with (S k * MailerSendgrid.bloque_envios) by (cbn [Nat.mul]; lia).
    apply IH; lia.
Qed.





Lemma sustituciones_ok (ph : list (str * nat)) (fila : list str) :
  (forall k v, In (k, v) ph -> v < length fila) ->
  MailerSendgrid.sustituciones ph fila
  = Ok (map (fun kv => (fst kv, nth (snd kv) fila [])) ph).
Proof.
  induction ph as [|[k v] ph IH]; intros H; [reflexivity|].
  cbn [MailerSendgrid.sustituciones map fst snd].
  rewrite (getitem_nth fila v []) by (apply (H k); left; reflexivity).
  cbn [bind]. rewrite IH by (intros k' v' Hin; apply (H k'); right; exact Hin).
  reflexivity.
Qed.

Lemma personalizar_ok (cfg : Config) (placeholders : list (str * nat)) (fila : list str) :
  separador_subcampos cfg <> [] ->
  4 <= length fila ->
  (forall k v, In (k, v) placeholders -> v < length fila) ->
  MailerSendgrid.personalizar cfg placeholders fila
  = Ok (personalizacion_de (separador_subcampos cfg) placeholders fila).
Proof.
  intros Hsep Hlen Hcols. unfold MailerSendgrid.personalizar, personalizacion_de, split.
  rewrite (getitem_nth fila 0 []), (getitem_nth fila 1 []),
          (getitem_nth fila 2 []), (getitem_nth fila 3 []) by lia.
  destruct (separador_subcampos cfg) as [|c sep]; [congruence|].
  cbn [bind].
  destruct (str_eqb (nth 2 fila []) []); cbn [negb bind];
    destruct (str_eqb (nth 3 fila []) []); cbn [negb bind];
    (destruct placeholders as [|kv ph];
     [cbn [length Nat.ltb Nat.leb bind]; reflexivity
     |cbn [length Nat.ltb Nat.leb]; rewrite (sustituciones_ok (kv :: ph) fila Hcols);
      cbn [bind]; reflexivity]).
Qed.

Lemma personalizar_bloque_ok (cfg : Config) (placeholders : list (str * nat))
      (bloque : list (list str)) :
  separador_subcampos cfg <> [] ->
  Forall (fun fila => 4 <= length fila /\
                      forall k v, In (k, v) placeholders -> v < length fila) bloque ->
  MailerSendgrid.personalizar_bloque cfg placeholders bloque
  = Ok (map (personalizacion_de (separador_subcampos cfg) placeholders) bloque).
Proof.
  intros Hsep Hall. induction Hall as [|fila rest [Hlen Hcols] _ IH]; [reflexivity|].
  cbn [MailerSendgrid.personalizar_bloque map].
  rewrite (personalizar_ok cfg placeholders fila Hsep Hlen Hcols). cbn [bind].
  rewrite IH. reflexivity.
Qed.

(** ** The count of the attachment names *)

Lemma dict_get_set (d : list (str * nat)) (k : str) (v : nat) (k' : str) :
  MailerSendgrid.dict_get (dict_set d k v) k'
  = if str_eqb k k' then v else MailerSendgrid.dict_get d k'.
Proof.
  induction d as [|[k0 v0] d IH].
  - reflexivity.
  - cbn [dict_set]. destruct (str_eqb k0 k) eqn:E.
    + apply str_eqb_eq in E. subst k0. cbn [MailerSendgrid.dict_get].
      destruct (str_eqb k k'); reflexivity.
    + cbn [MailerSendgrid.dict_get]. rewrite IH.
      destruct (str_eqb k0 k') eqn:E'; [|reflexivity].
      apply str_eqb_eq in E'. subst k'. rewrite str_eqb_sym, E. reflexivity.
Qed.

Lemma fromkeys_spec (l : list str) :
  forall seen,
    NoDup (MailerSendgrid.fromkeys seen l) /\
    forall x, In x (MailerSendgrid.fromkeys seen l) <-> In x l /\ ~ In x seen.
Proof.
  induction l as [|y l IH]; intros seen.
  - split; [constructor|]. intros x. simpl. tauto.
  - cbn [MailerSendgrid.fromkeys].
    destruct (existsb (str_eqb y) seen) eqn:E.
    + apply existsb_str_eqb in E. destruct (IH seen) as [Hnd Hin].
      split; [exact Hnd|]. intros x. rewrite Hin. cbn [In]. split.
      * tauto.
      * intros [[-> | H] Hn]; [contradiction | tauto].
    + assert (Hy : ~ In y seen).
      { intros H. apply existsb_str_eqb in H. congruence. }
      destruct (IH (y :: seen)) as [Hnd Hin]. split.
      * constructor; [|exact Hnd]. intros H. apply Hin in H. cbn [In] in H. tauto.
      * intros x. cbn [In]. rewrite Hin. cbn [In]. split.
        -- intros [<- | [H Hn]]; [tauto|]. split; [tauto|]. tauto.
        -- intros [[<- | H] Hn]; [tauto|].
           destruct (list_eq_dec ascii_dec y x) as [-> | Hne]; [tauto|].
           right. split; [exact H|]. intros [H' | H']; [congruence | tauto].
Qed.

Lemma contar_linea (l : list str) :
  NoDup l ->
  forall d j,
    MailerSendgrid.dict_get
      (fold_left (fun d j => dict_set d j (MailerSendgrid.dict_get d j + 1)) l d) j
    = MailerSendgrid.dict_get d j + (if existsb (str_eqb j) l then 1 else 0).
Proof.
  induction 1 as [|x l Hx Hnd IH]; intros d j.
  - cbn. lia.
  - cbn [fold_left existsb]. rewrite IH, dict_get_set.
    destruct (str_eqb x j) eqn:E.
    + apply str_eqb_eq in E. subst x. rewrite str_eqb_refl. cbn [orb].
      destruct (existsb (str_eqb j) l) eqn:E'; [|lia].
      apply existsb_str_eqb in E'. contradiction.
    + rewrite str_eqb_sym, E. cbn [orb]. reflexivity.
Qed.

Lemma contar_adjuntos_ok (cfg : Config) (bloque : list (list str)) :
  separador_subcampos cfg <> [] ->
  Forall (fun fila => 2 <= length fila) bloque ->
  forall dict_adjuntos,
    exists d', MailerSendgrid.contar_adjuntos cfg bloque dict_adjuntos = Ok d'.
Proof.
  intros Hsep Hall. induction Hall as [|fila rest Hlen _ IH]; intros d.
  - exists d. reflexivity.
  - cbn [MailerSendgrid.contar_adjuntos].
    rewrite (getitem_nth fila 1 []) by lia. cbn [bind].
    destruct (split_join (nth 1 fila []) (separador_subcampos cfg) Hsep) as (Hs & _).
    rewrite Hs. cbn [bind]. apply IH.
Qed.

(** X16.  The count that the SENDGRID branch makes before each block:
    for rows that have an attachment field and a non-empty sub-delimiter,
    it ends, and the number it holds for a name is the number of rows of
    the block that have this name among their attachments (a name that
    comes twice in a row counts once), so never more than the rows of the
    block. *)
Theorem attachment_count_is_rows (cfg : Config) (bloque : list (list str))
        (dict_adjuntos : list (str * nat)) :
  separador_subcampos cfg <> [] ->
  Forall (fun fila => 2 <= length fila) bloque ->
  exists d',
    MailerSendgrid.contar_adjuntos cfg bloque dict_adjuntos = Ok d' /\
    forall j,
      MailerSendgrid.dict_get d' j
      = MailerSendgrid.dict_get dict_adjuntos j
        + filas_con (separador_subcampos cfg) j bloque /\
      filas_con (separador_subcampos cfg) j bloque <= length bloque.
Proof.
  intros Hsep Hall. revert dict_adjuntos.
  induction Hall as [|fila rest Hlen _ IH]; intros d.
  - exists d. split; [reflexivity|]. intros j. cbn. lia.
  - cbn [MailerSendgrid.contar_adjuntos].
    rewrite (getitem_nth fila 1 []) by lia. cbn [bind].
    destruct (split_join (nth 1 fila []) (separador_subcampos cfg) Hsep) as (Hs & _).
    rewrite Hs. cbn [bind].
    destruct (IH (fold_left (fun d j => dict_set d j (MailerSendgrid.dict_get d j + 1))
                    (MailerSendgrid.fromkeys []
                       (split_go (separador_subcampos cfg) 0 [] (nth 1 fila []))) d))
      as (d' & Hd' & Hcount).
    exists d'. split; [exact Hd'|]. intros j. destruct (Hcount j) as [Hj Hle].
    rewrite Hj, contar_linea by apply fromkeys_spec.
    unfold filas_con in *. cbn [filter]. fold (adjuntos_de (separador_subcampos cfg) fila).
    destruct (existsb (str_eqb j) (adjuntos_de (separador_subcampos cfg) fila));
      cbn [length]; lia.
Qed.

Lemma attachment_count_is_rows_witness :
  exists d',
    MailerSendgrid.contar_adjuntos (Example.cfg (lit "sendgrid"))
      [Example.fila "u@x.com" "a.txt;b.txt;a.txt" "" "" "Ana";
       Example.fila "v@x.com" "a.txt" "" "" "Bob"] [] = Ok d' /\
    MailerSendgrid.dict_get d' (lit "a.txt") = 2 /\
    MailerSendgrid.dict_get d' (lit "b.txt") = 1.
Proof.
  assert (Hsep : separador_subcampos (Example.cfg (lit "sendgrid")) <> []) by discriminate.
  assert (Hall : Forall (fun fila => 2 <= length fila)
                   [Example.fila "u@x.com" "a.txt;b.txt;a.txt" "" "" "Ana";
                    Example.fila "v@x.com" "a.txt" "" "" "Bob"]).
  { repeat (apply Forall_cons; [simpl; lia|]). apply Forall_nil. }
  destruct (attachment_count_is_rows (Example.cfg (lit "sendgrid")) _ [] Hsep Hall)
    as (d' & Hd' & Hcount).
  exists d'. split; [exact Hd'|].
  split; [exact (proj1 (Hcount (lit "a.txt"))) | exact (proj1 (Hcount (lit "b.txt")))].
Defined.



(* ================================================================== *)
(** * Further properties: the type of an attachment and its file name *)
(* ================================================================== *)

Lemma split_once_char (c : ascii) (a b : str) :
  ~ In c a ->
  forall cur, split_once (a ++ c :: b) [c] cur = Some (cur ++ a, b).
Proof.
  induction a as [|x a IH]; intros Hin cur.
  - cbn [app split_once startswith]. rewrite Ascii.eqb_refl. cbn [andb length skipn].
    rewrite app_nil_r. reflexivity.
  - cbn [app split_once startswith].
    assert (Hx : Ascii.eqb c x = false).
    { apply Ascii.eqb_neq. intros ->. apply Hin. left. reflexivity. }
    rewrite Hx. cbn [andb]. rewrite IH by (intros H; apply Hin; right; exact H).
    rewrite <- app_assoc. reflexivity.
Qed.

Lemma split_once_none (c : ascii) (s : str) :
  ~ In c s -> forall cur, split_once s [c] cur = None.
Proof.
  induction s as [|x s IH]; intros Hin cur; [reflexivity|].
  cbn [split_once startswith].
  assert (Hx : Ascii.eqb c x = false).
  { apply Ascii.eqb_neq. intros ->. apply Hin. left. reflexivity. }
  rewrite Hx. cbn [andb]. apply IH. intros H. apply Hin. right. exact H.
Qed.

(** X18.  The part made for a file.  Without a guessed type, or with an
    encoding, it is a base64 part of type application/octet-stream with
    the bytes of the file.  A guessed type is cut at its first ["/"]: the
    main type chooses the class of the part, and only the main type text
    is read as text; what follows the first ["/"] is the subtype.  A
    guessed type without ["/"] raises [ValueError].  The only other
    failure is that of the reading. *)
Theorem typed_part_follows_the_guess (W : World) (path : str) :
  (fst (guess_type W path) = None \/ snd (guess_type W path) <> None ->
   typed_part W path
   = (payload <- read_bytes W path ;;
      Ok (Part MIMEBase_base64 (lit "application") (lit "octet-stream") payload []))) /\
  (forall maintype subtype,
      guess_type W path = (Some (maintype ++ "/"%char :: subtype), None) ->
      ~ In "/"%char maintype ->
      typed_part W path
      = (payload <- (if str_eqb maintype (lit "text")
                     then read_text W path else read_bytes W path) ;;
         Ok (Part (clase_de maintype) maintype subtype payload []))) /\
  (forall ctype,
      guess_type W path = (Some ctype, None) ->
      ~ In "/"%char ctype ->
      typed_part W path
      = Raise (ValueError (lit "not enough values to unpack (expected 2, got 1)"))).
Proof.
  unfold typed_part. split; [|split].
  - destruct (guess_type W path) as [[ctype|] [enc|]]; cbn [fst snd];
      intros [H | H]; try discriminate H; try congruence; reflexivity.
  - intros maintype subtype Hg Hin. rewrite Hg. unfold unpack2.
    change (lit "/") with ["/"%char].
    rewrite (split_once_char "/"%char maintype subtype Hin []). cbn [app bind].
    unfold clase_de.
    destruct (str_eqb maintype (lit "text")); [reflexivity|].
    destruct (str_eqb maintype (lit "image")); [reflexivity|].
    destruct (str_eqb maintype (lit "audio")); reflexivity.
  - intros ctype Hg Hin. rewrite Hg. unfold unpack2.
    change (lit "/") with ["/"%char].
    rewrite (split_once_none "/"%char ctype Hin []). reflexivity.
Qed.

Lemma typed_part_follows_the_guess_witness :
  let W := Example.world (lit "smtp") Example.columnas Example.tres in
  typed_part W (lit "a.tar.gz")
  = Ok (Part MIMEBase_base64 (lit "application") (lit "octet-stream")
             (lit "some bytes") []) /\
  typed_part W (lit "a.txt")
  = Ok (Part (MIMEText None) (lit "text") (lit "plain") (lit "some text") []).
Proof.
  intros W.
  destruct (typed_part_follows_the_guess W (lit "a.tar.gz")) as (H1 & _ & _).
  destruct (typed_part_follows_the_guess W (lit "a.txt")) as (_ & H2 & _).
  split.
  - rewrite H1 by (left; reflexivity). reflexivity.
  - assert (Hin : ~ In "/"%char (lit "text")).
    { cbn. intros [H | [H | [H | [H | []]]]]; discriminate H. }
    rewrite (H2 (lit "text") (lit "plain") eq_refl Hin). reflexivity.
Defined.

Lemma tail_length_all (q : str) :
  forallb (fun c => negb (NtPath.is_sep c)) q = true ->
  forall s rest, NtPath.is_sep s = true ->
    NtPath.tail_length (q ++ s :: rest) = length q /\
    NtPath.tail_length q = length q.
Proof.
  induction q as [|c q IH]; intros H s rest Hs.
  - cbn [app NtPath.tail_length length]. rewrite Hs. auto.
  - cbn [forallb] in H. apply andb_true_iff in H. destruct H as [Hc Hq].
    apply negb_true_iff in Hc. cbn [app NtPath.tail_length length]. rewrite Hc.
    destruct (IH Hq s rest Hs) as [-> ->]. auto.
Qed.

Lemma forallb_rev {A} (f : A -> bool) (l : list A) :
  forallb f l = true -> forallb f (rev l) = true.
Proof.
  rewrite !forallb_forall. intros H x Hx. apply H, in_rev, Hx.
Qed.

(** A path that begins with neither a separator nor a drive letter has
    no drive. *)
Lemma splitdrive_none (c : ascii) (q : str) :
  NtPath.is_sep c = false ->
  firstn 1 q <> [NtPath.colon] ->
  NtPath.splitdrive (c :: q) = ([], c :: q).
Proof.
  intros Hc Hq. unfold NtPath.splitdrive.
  destruct (2 <=? length (c :: q)); [|reflexivity].
  unfold NtPath.is_sep in Hc. apply orb_false_iff in Hc. destruct Hc as [Hs Ha].
  cbn [NtPath.normalize map]. rewrite Ha.
  assert (H1 : str_eqb (firstn 2 (c :: map (fun c0 => if Ascii.eqb c0 NtPath.altsep
                                                      then NtPath.sep else c0) q))
                       [NtPath.sep; NtPath.sep] = false).
  { cbn [firstn]. destruct (firstn 1 _); cbn [str_eqb]; rewrite Hs; reflexivity. }
  rewrite H1. cbn [andb skipn].
  destruct q as [|x q]; [reflexivity|].
  cbn [map firstn str_eqb].
  assert (H2 : Ascii.eqb (if Ascii.eqb x NtPath.altsep then NtPath.sep else x)
                         NtPath.colon = false).
  { destruct (Ascii.eqb x NtPath.altsep); [reflexivity|].
    apply Ascii.eqb_neq. intros ->. apply Hq. reflexivity. }
  rewrite H2. reflexivity.
Qed.

(** X19.  The file name that [ntpath.basename] gives to the headers.  For
    a path that begins with neither a separator nor a drive letter, it is
    what follows the last ["/"] or ["\"], and the whole path when it has
    neither.  But a path whose second character is [":"] loses its first
    two characters, as a drive: the attachment [a:b.txt] is named
    [b.txt]. *)
Theorem basename_is_last_component (c : ascii) (q dir name : str) (s : ascii) :
  let no_sep := forallb (fun x => negb (NtPath.is_sep x)) in
  (NtPath.is_sep c = false -> firstn 1 q <> [NtPath.colon] ->
   (c :: q = dir ++ s :: name -> NtPath.is_sep s = true -> no_sep name = true ->
    NtPath.basename (c :: q) = name) /\
   (no_sep (c :: q) = true -> NtPath.basename (c :: q) = c :: q)) /\
  (no_sep name = true -> NtPath.basename (c :: NtPath.colon :: name) = name).
Proof.
  intros no_sep. split.
  - intros Hc Hq. unfold NtPath.basename, NtPath.split_tail.
    rewrite (splitdrive_none c q Hc Hq). cbn [snd]. split.
    + intros Hp Hs Hn. rewrite Hp, rev_app_distr. cbn [rev]. rewrite <- app_assoc.
      cbn [app].
      destruct (tail_length_all (rev name) (forallb_rev _ _ Hn) s (rev dir) Hs) as [-> _].
      rewrite length_rev, length_app. cbn [length].
      replace (length dir + S (length name) - length name) with (length (dir ++ [s]))
        by (rewrite length_app; simpl; lia).
      replace (dir ++ s :: name) with ((dir ++ [s]) ++ name)
        by (rewrite <- app_assoc; reflexivity).
      rewrite skipn_app, skipn_all, Nat.sub_diag. reflexivity.
    + intros Hn.
      destruct (tail_length_all (rev (c :: q)) (forallb_rev _ _ Hn) NtPath.sep []
                                eq_refl) as [_ ->].
      rewrite length_rev, Nat.sub_diag. reflexivity.
  - intros Hn. unfold NtPath.basename, NtPath.split_tail.
    assert (Hd : NtPath.splitdrive (c :: NtPath.colon :: name)
                 = ([c; NtPath.colon], name)).
    { unfold NtPath.splitdrive. cbn [length Nat.leb NtPath.normalize map firstn skipn].
      cbn [str_eqb].
      destruct (Ascii.eqb (if Ascii.eqb c NtPath.altsep then NtPath.sep else c) NtPath.sep);
        reflexivity. }
    rewrite Hd. cbn [snd].
    destruct (tail_length_all (rev name) (forallb_rev _ _ Hn) NtPath.sep [] eq_refl)
      as [_ ->].
    rewrite length_rev, Nat.sub_diag. reflexivity.
Qed.

Lemma basename_is_last_component_witness :
  NtPath.basename (lit "img/2020/logo.png") = lit "logo.png" /\
  NtPath.basename (lit "a:b.txt") = lit "b.txt".
Proof.
  destruct (basename_is_last_component "i"%char (lit "mg/2020/logo.png")
              (lit "img/2020") (lit "logo.png") "/"%char) as [H1 _].
  destruct (basename_is_last_component "a"%char [] [] (lit "b.txt") "/"%char) as [_ H2].
  split.
  - assert (Hq : firstn 1 (lit "mg/2020/logo.png") <> [NtPath.colon]) by discriminate.
    exact (proj1 (H1 eq_refl Hq) eq_refl eq_refl eq_refl).
  - exact (H2 eq_refl).
Defined.

(* ================================================================== *)
(** * Further properties: the SMTP session *)
(* ================================================================== *)

(** X20.  Once a row's message is composed: it is handed to the transport
    exactly when the connection, STARTTLS and the login go through, and the
    row is counted as sent exactly when [sendmail] and [quit] go through as
    well.  So a row whose [quit] (or [sendmail]) raises is counted as
    failed although its message was handed over. *)
Theorem sent_and_counted
        (attach_files : World -> list str -> message -> result message)
        (W : World) (cfg : Config) (n : nat) (i : list str)
        (elem_asunto elem_cuerpo : str) (rcpt : list str) (composed : message) :
  let ready := smtp W n (Connect (servidor_smtp cfg) (timeout cfg)) = None /\
               smtp W n StartTLS = None /\
               smtp W n (Login (username cfg) (password cfg)) = None in
  let done := smtp W n (Sendmail (from_email cfg) rcpt composed) = None /\
              smtp W n Quit = None in
  compose attach_files W cfg i elem_asunto elem_cuerpo = Ok (rcpt, composed) ->
  (ready ->
   fst (try_block attach_files W cfg n i elem_asunto elem_cuerpo)
   = [ESendmail (from_email cfg) rcpt composed]) /\
  (~ ready -> fst (try_block attach_files W cfg n i elem_asunto elem_cuerpo) = []) /\
  (snd (try_block attach_files W cfg n i elem_asunto elem_cuerpo) = Ok tt
   <-> ready /\ done).
Proof.
  intros ready done Hc. unfold try_block, session, step. rewrite Hc.
  subst ready done.
  destruct (smtp W n (Connect (servidor_smtp cfg) (timeout cfg))) as [e|]; cbn [bind fst snd].
  { split; [|split]; [intros [H _]; discriminate H | reflexivity |].
    split; [discriminate | intros [[H _] _]; discriminate H]. }
  destruct (smtp W n StartTLS) as [e|]; cbn [bind fst snd].
  { split; [|split]; [intros (_ & H & _); discriminate H | reflexivity |].
    split; [discriminate | intros [(_ & H & _) _]; discriminate H]. }
  destruct (smtp W n (Login (username cfg) (password cfg))) as [e|]; cbn [bind fst snd].
  { split; [|split]; [intros (_ & _ & H); discriminate H | reflexivity |].
    split; [discriminate | intros [(_ & _ & H) _]; discriminate H]. }
  split; [reflexivity|]. split; [intros H; exfalso; apply H; auto|].
  destruct (smtp W n (Sendmail (from_email cfg) rcpt composed)) as [e|]; cbn [bind].
  { split; [discriminate | intros [_ [H _]]; discriminate H]. }
  destruct (smtp W n Quit) as [e|].
  { split; [discriminate | intros [_ [_ H]]; discriminate H]. }
  split; auto.
Qed.

Lemma sent_and_counted_witness :
  let W := Example.world (lit "smtp") Example.columnas Example.tres in
  fst (try_block Mailer.attach_files W (Example.cfg (lit "smtp")) 2
                 (Example.fila "v@x.com" "" "" "" "Bob")
                 (lit "Hello Bob") (lit "Body Bob text")) = [].
Proof.
  intros W.
  destruct (compose Mailer.attach_files W (Example.cfg (lit "smtp"))
                    (Example.fila "v@x.com" "" "" "" "Bob")
                    (lit "Hello Bob") (lit "Body Bob text")) as [[rcpt composed]|e] eqn:E.
  - destruct (sent_and_counted Mailer.attach_files W (Example.cfg (lit "smtp")) 2
                (Example.fila "v@x.com" "" "" "" "Bob")
                (lit "Hello Bob") (lit "Body Bob text") rcpt composed E) as (_ & H & _).
    apply H. intros (_ & _ & Hl). discriminate Hl.
  - vm_compute in E. discriminate E.
Defined.
